(** * Write-through physical cache (sdk/physical/cache.go)

    A shallow embedding of the [Cache] type of [sdk/physical/cache.go] and
    of its methods, together with the properties of the write-through
    discipline: which collaborator is called, in which order, and what a
    failing backend call leaves behind.

    Go values that are pointers stay pointers here: an [*Entry] is an
    optional location in a heap of entry cells, a [[]byte] is an optional
    slice header over a heap of backing arrays, and an [interface{}] is a
    tagged value whose [nil] differs from a typed nil pointer. *)

From Stdlib Require Import ZArith String List Lia Bool.
From stdpp Require Import base tactics option list sets strings.

Open Scope string_scope.
Open Scope list_scope.
Open Scope Z_scope.

#[local] Set Warnings "-clear-no-such-hyp".

(** ** Memory: entry cells and backing arrays *)

Definition loc := nat.

(** [*Entry]: [None] is the nil pointer. *)
Definition ptr := option loc.

(** A non-nil [[]byte]: a window on a backing array. *)
Record slice := Slice {
  s_array : loc;
  s_off : nat;
  s_len : nat
}.
Arguments Slice (s_array s_off s_len)%_nat_scope.

(** [type Entry struct { Key string; Value []byte; SealWrap bool;
    ValueHash []byte }]; a nil slice is [None]. *)
Record Entry := mkEntry {
  Key : string;
  Value : option slice;
  ValueHash : option slice;
  SealWrap : bool
}.

Record Heap := mkHeap {
  entries : list Entry;
  arrays : list (list Byte.byte)
}.

#[global] Instance slice_eq_dec : EqDecision slice.
Proof. solve_decision. Defined.

#[global] Instance byte_eq_dec : EqDecision Byte.byte := Byte.byte_eq_dec.

#[global] Instance Entry_eq_dec : EqDecision Entry.
Proof. solve_decision. Defined.

Definition load_entry (h : Heap) (p : ptr) : option Entry :=
  match p with
  | None => None
  | Some l => entries h !! l
  end.

(** The bytes a slice denotes. *)
Definition slice_bytes (h : Heap) (s : slice) : list Byte.byte :=
  take (s_len s) (drop (s_off s) (default [] (arrays h !! s_array s))).

Definition bytes_of (h : Heap) (s : option slice) : option (list Byte.byte) :=
  slice_bytes h <$> s.

(** A slice header lies within its backing array, as every Go slice does. *)
Definition wf_slice (h : Heap) (s : slice) : Prop :=
  ∃ buf, arrays h !! s_array s = Some buf ∧ (s_off s + s_len s ≤ length buf)%nat.

Definition wf_opt_slice (h : Heap) (s : option slice) : Prop :=
  match s with
  | None => True
  | Some s => wf_slice h s
  end.

(** [&Entry{...}]: a fresh cell at the end of the entry heap. *)
Definition alloc_entry (e : Entry) (h : Heap) : loc * Heap :=
  (length (entries h), mkHeap (entries h ++ [e]) (arrays h)).

Definition store_entry (l : loc) (e : Entry) (h : Heap) : Heap :=
  mkHeap (<[l := e]> (entries h)) (arrays h).

(** [make([]byte, n)]: a fresh zeroed backing array and a slice over it. *)
Definition make (n : nat) (h : Heap) : slice * Heap :=
  (Slice (length (arrays h)) 0 n,
   mkHeap (entries h) (arrays h ++ [replicate n Byte.x00])).

(** [copy(dst, src)]: copies [min(len(dst), len(src))] bytes and returns
    that count. *)
Definition copy (dst src : slice) (h : Heap) : nat * Heap :=
  let n := Nat.min (s_len dst) (s_len src) in
  let data := take n (slice_bytes h src) in
  (n,
   mkHeap (entries h)
     (alter (λ buf, take (s_off dst) buf ++ data
                      ++ drop (s_off dst + length data) buf)
        (s_array dst) (arrays h))).

Definition set_Value (l : loc) (v : option slice) (h : Heap) : Heap :=
  match entries h !! l with
  | Some c => store_entry l (mkEntry (Key c) v (ValueHash c) (SealWrap c)) h
  | None => h
  end.

Definition set_ValueHash (l : loc) (v : option slice) (h : Heap) : Heap :=
  match entries h !! l with
  | Some c => store_entry l (mkEntry (Key c) (Value c) v (SealWrap c)) h
  | None => h
  end.

(** [if src != nil { dst = make([]byte, len(src)); copy(dst, src) }],
    where [set] is the assignment to the field [dst] of the cell [l]. *)
Definition clone_bytes (set : loc → option slice → Heap → Heap)
    (l : loc) (src : option slice) (h : Heap) : Heap :=
  match src with
  | Some src =>
      let '(dst, h) := make (s_len src) h in
      let h := set l (Some dst) h in
      snd (copy dst src h)
  | None => h
  end.

(** Lines 147-158 of [Put]: the clone of [entry] that goes into the cache.
    [e] is the content of [*entry] when the clone is taken. *)
Definition cloneEntry (e : Entry) (h : Heap) : loc * Heap :=
  let '(cacheEntry, h) :=
    alloc_entry (mkEntry (Key e) None None (SealWrap e)) h in
  let h := clone_bytes set_Value cacheEntry (Value e) h in
  let h := clone_bytes set_ValueHash cacheEntry (ValueHash e) h in
  (cacheEntry, h).

(** ** Interface values and contexts *)

(** [interface{}]: the nil interface, or a dynamic type with its value.
    [AEntry None] is a nil [*Entry] boxed in an interface, which Go does
    not consider equal to [nil]. *)
Inductive any :=
| ANil
| ABool (b : bool)
| AString (s : string)
| AInt (z : Z)
| AEntry (p : ptr).

#[global] Instance any_eq_dec : EqDecision any.
Proof. solve_decision. Defined.

(** [context.Context], as far as values go. *)
Inductive Context :=
| Background
| WithValue (parent : Context) (key val : any).

#[global] Instance Context_eq_dec : EqDecision Context.
Proof. solve_decision. Defined.

(** [ctx.Value(key)]: the innermost binding of [key], or nil. *)
Fixpoint Value_of (ctx : Context) (key : any) : any :=
  match ctx with
  | Background => ANil
  | WithValue parent k v =>
      if decide (k = key) then v else Value_of parent key
  end.

Definition DefaultCacheSize : Z := 128 * 1024.

Definition refreshCacheCtxKey : any := AString "refresh_cache".

Definition CacheRefreshContext (ctx : Context) (r : bool) : Context :=
  WithValue ctx refreshCacheCtxKey (ABool r).

(** [r, ok := ctx.Value(refreshCacheCtxKey).(bool)]. *)
Definition cacheRefreshFromContext (ctx : Context) : bool :=
  match Value_of ctx refreshCacheCtxKey with
  | ABool r => r
  | _ => false
  end.

Definition cacheExceptionsPaths : list string :=
  [ "wal/logs/"; "index/pages/"; "index-dr/pages/"; "sys/expire/";
    "core/poison-pill"; "core/raft/tls";
    "core/seal-config"; "core/recovery-config" ].

(** ** Collaborators *)

(** A [*locksutil.LockEntry], identified by its address. *)
Definition LockEntry := nat.

(** Go's [error]: [None] is nil. *)
Definition error := option string.

(** Every call the cache makes to a collaborator, in program order. *)
Inductive Event :=
| EvLock (l : LockEntry)
| EvUnlock (l : LockEntry)
| EvRLock (l : LockEntry)
| EvRUnlock (l : LockEntry)
| EvBackendPut (ctx : Context) (entry : ptr)
| EvBackendGet (ctx : Context) (key : string)
| EvBackendDelete (ctx : Context) (key : string)
| EvBackendList (ctx : Context) (prefix : string)
| EvBackendListPage (ctx : Context) (prefix after : string) (limit : Z)
| EvLruGet (key : string)
| EvLruAdd (key : string) (value : any)
| EvLruRemove (key : string)
| EvLruPurge
| EvIncrCounter (key : list string) (val : Z).

#[global] Instance Event_eq_dec : EqDecision Event.
Proof. solve_decision. Defined.

Definition is_backend_event (e : Event) : bool :=
  match e with
  | EvBackendPut _ _ | EvBackendGet _ _ | EvBackendDelete _ _
  | EvBackendList _ _ | EvBackendListPage _ _ _ _ => true
  | _ => false
  end.

Definition is_lock_event (e : Event) : bool :=
  match e with
  | EvLock _ | EvUnlock _ | EvRLock _ | EvRUnlock _ => true
  | _ => false
  end.

(** How often the counter [key] was incremented in a trace. *)
Definition counter (key : list string) (tr : list Event) : nat :=
  length (filter (λ e, e = EvIncrCounter key 1) tr).

(** The [Backend] interface. A backend has a state of its own and sees the
    heap: it may read the entry it is given, allocate the entry it returns,
    and keep or modify either. *)
Class Backend (B : Type) := {
  backend_Put : Context → ptr → Heap → B → error * Heap * B;
  backend_Get : Context → string → Heap → B → ptr * error * Heap * B;
  backend_Delete : Context → string → Heap → B → error * Heap * B;
  backend_List : Context → string → Heap → B → list string * error * Heap * B;
  backend_ListPage :
    Context → string → string → Z → Heap → B → list string * error * Heap * B
}.

(** The methods of [*lru.TwoQueueCache] (package
    [github.com/hashicorp/golang-lru]) that the cache calls. The package is
    a dependency and its code is not part of this development, so the
    policy is a parameter. [lru_resident] is not a method: it names the
    key/value pairs a policy currently holds, for stating its laws. *)
Class EvictionPolicy (Q : Type) := {
  New2Q : Z → option Q;
  lru_Add : string → any → Q → Q;
  lru_Get : string → Q → any * bool * Q;
  lru_Remove : string → Q → Q;
  lru_Purge : Q → Q;
  lru_resident : Q → list (string * any)
}.

(** What the cache relies on from an eviction policy. *)
Class EvictionPolicyLaws (Q : Type) `{EvictionPolicy Q} : Prop := {
  New2Q_resident : ∀ n q, New2Q n = Some q → lru_resident q = [];
  lru_Get_hit : ∀ k q v q',
    lru_Get k q = (v, true, q') →
    (k, v) ∈ lru_resident q ∧ lru_resident q' ⊆ lru_resident q;
  lru_Get_miss : ∀ k q v q',
    lru_Get k q = (v, false, q') → v = ANil ∧ q' = q;
  lru_Add_resident : ∀ k v q,
    lru_resident (lru_Add k v q) ⊆ (k, v) :: lru_resident q;
  lru_Remove_resident : ∀ k q,
    lru_resident (lru_Remove k q) ⊆ lru_resident q;
  lru_Purge_resident : ∀ q, lru_resident (lru_Purge q) = []
}.

(** Package [locksutil]: the lock array and the key-to-lock mapping. *)
Class Locksutil := {
  CreateLocks : list LockEntry;
  LockForKey : list LockEntry → string → LockEntry
}.

(** Modelled from the spec: [pathmanager.PathManager], whose source is
    not at hand. The spec describes it as a static prefix-membership
    predicate over the configured paths. *)
Definition PathManager := list string.

Definition pathmanager_New : PathManager := [].

Definition AddPaths (pm : PathManager) (paths : list string) : PathManager :=
  pm ++ paths.

Definition HasPath (pm : PathManager) (path : string) : bool :=
  existsb (λ p, String.prefix p path) pm.

Record Logger := mkLogger { IsDebug : bool }.

(** A [metrics.MetricSink] handle; its calls are recorded in the trace. *)
Definition MetricSink := nat.

(** ** The cache and its methods *)

Section Model.
Context {B Q : Type} `{!Backend B} `{!EvictionPolicy Q} `{!Locksutil}.

(** [type Cache struct]. [backend] holds the backend's state, [lru] is
    the [*lru.TwoQueueCache] (nil when [New2Q] failed) and [enabled] is
    the [uint32] cell behind the pointer. *)
Record Cache := mkCache {
  backend : B;
  lru : option Q;
  locks : list LockEntry;
  logger : Logger;
  enabled : Z;
  cacheExceptions : PathManager;
  metricSink : MetricSink
}.

Record State := mkState {
  cache : Cache;
  heap : Heap;
  trace : list Event
}.

(** [NewCache]: the debug line is written to the logger and has no part
    in the result. *)
Definition NewCache (b : B) (size : Z) (logger : Logger)
    (metricSink : MetricSink) : Cache :=
  let size := if size <=? 0 then DefaultCacheSize else size in
  let pm := AddPaths pathmanager_New cacheExceptionsPaths in
  let cache := New2Q size in
  {| backend := b;
     lru := cache;
     locks := CreateLocks;
     logger := logger;
     enabled := 0;
     cacheExceptions := pm;
     metricSink := metricSink |}.

Definition ShouldCache (c : Cache) (key : string) : bool :=
  if enabled c =? 0 then false
  else negb (HasPath (cacheExceptions c) key).

(** *** Function bodies

    A body runs on the state and on the stack of deferred calls of its
    frame; it ends normally or panicking. [func] runs a body as a call:
    the deferred calls run last-in first-out on either exit. *)

Inductive Deferred :=
| DUnlock (l : LockEntry)
| DRUnlock (l : LockEntry).

Inductive BodyResult (A : Type) :=
| Normal (a : A) (ds : list Deferred) (st : State)
| Panicking (msg : string) (ds : list Deferred) (st : State).
Arguments Normal {A}.
Arguments Panicking {A}.

Inductive Result (A : Type) :=
| Ok (a : A) (st : State)
| Panic (msg : string) (st : State).
Arguments Ok {A}.
Arguments Panic {A}.

Definition Body (A : Type) := list Deferred → State → BodyResult A.

#[global] Instance Body_ret : MRet Body := λ A a ds st, Normal a ds st.

#[global] Instance Body_bind : MBind Body := λ A A' f m ds st,
  match m ds st with
  | Normal a ds st => f a ds st
  | Panicking msg ds st => Panicking msg ds st
  end.

Definition emit (e : Event) (st : State) : State :=
  mkState (cache st) (heap st) (trace st ++ [e]).

Definition set_cache (c : Cache) (st : State) : State :=
  mkState c (heap st) (trace st).

Definition set_lru (q : option Q) (c : Cache) : Cache :=
  mkCache (backend c) q (locks c) (logger c) (enabled c)
    (cacheExceptions c) (metricSink c).

Definition set_enabled (v : Z) (c : Cache) : Cache :=
  mkCache (backend c) (lru c) (locks c) (logger c) v
    (cacheExceptions c) (metricSink c).

Definition set_backend (b : B) (c : Cache) : Cache :=
  mkCache b (lru c) (locks c) (logger c) (enabled c)
    (cacheExceptions c) (metricSink c).

Definition getCache : Body Cache := λ ds st, Normal (cache st) ds st.

Definition event (e : Event) : Body unit := λ ds st, Normal tt ds (emit e st).

Definition panic {A} (msg : string) : Body A := λ ds st, Panicking msg ds st.

Definition defer (d : Deferred) : Body unit := λ ds st, Normal tt (d :: ds) st.

Definition nil_dereference : string :=
  "invalid memory address or nil pointer dereference".

(** [*p]: reading through a nil pointer panics. *)
Definition deref (p : ptr) : Body Entry := λ ds st,
  match load_entry (heap st) p with
  | Some e => Normal e ds st
  | None => Panicking nil_dereference ds st
  end.

Definition Lock (l : LockEntry) : Body unit := event (EvLock l).
Definition RLock (l : LockEntry) : Body unit := event (EvRLock l).

Definition run_deferred (d : Deferred) (st : State) : State :=
  match d with
  | DUnlock l => emit (EvUnlock l) st
  | DRUnlock l => emit (EvRUnlock l) st
  end.

Definition run_defers (ds : list Deferred) (st : State) : State :=
  fold_left (λ st d, run_deferred d st) ds st.

Definition func {A} (body : Body A) (st : State) : Result A :=
  match body [] st with
  | Normal a ds st => Ok a (run_defers ds st)
  | Panicking msg ds st => Panic msg (run_defers ds st)
  end.

(** *** Calls to the collaborators *)

Definition backendPut (ctx : Context) (entry : ptr) : Body error := λ ds st,
  let st := emit (EvBackendPut ctx entry) st in
  let '(err, h, b) := backend_Put ctx entry (heap st) (backend (cache st)) in
  Normal err ds (mkState (set_backend b (cache st)) h (trace st)).

Definition backendGet (ctx : Context) (key : string) : Body (ptr * error) :=
  λ ds st,
  let st := emit (EvBackendGet ctx key) st in
  let '(ent, err, h, b) := backend_Get ctx key (heap st) (backend (cache st)) in
  Normal (ent, err) ds (mkState (set_backend b (cache st)) h (trace st)).

Definition backendDelete (ctx : Context) (key : string) : Body error :=
  λ ds st,
  let st := emit (EvBackendDelete ctx key) st in
  let '(err, h, b) := backend_Delete ctx key (heap st) (backend (cache st)) in
  Normal err ds (mkState (set_backend b (cache st)) h (trace st)).

Definition backendList (ctx : Context) (prefix : string)
    : Body (list string * error) := λ ds st,
  let st := emit (EvBackendList ctx prefix) st in
  let '(keys, err, h, b) :=
    backend_List ctx prefix (heap st) (backend (cache st)) in
  Normal (keys, err) ds (mkState (set_backend b (cache st)) h (trace st)).

Definition backendListPage (ctx : Context) (prefix after : string)
    (limit : Z) : Body (list string * error) := λ ds st,
  let st := emit (EvBackendListPage ctx prefix after limit) st in
  let '(keys, err, h, b) :=
    backend_ListPage ctx prefix after limit (heap st) (backend (cache st)) in
  Normal (keys, err) ds (mkState (set_backend b (cache st)) h (trace st)).

(** A method call on [c.lru]; the receiver is dereferenced, so a nil
    [c.lru] panics. *)
Definition onLru {A} (e : Event) (f : Q → A * Q) : Body A := λ ds st,
  match lru (cache st) with
  | Some q =>
      let '(a, q') := f q in
      Normal a ds (emit e (set_cache (set_lru (Some q') (cache st)) st))
  | None => Panicking nil_dereference ds st
  end.

Definition lruAdd (key : string) (value : any) : Body unit :=
  onLru (EvLruAdd key value) (λ q, (tt, lru_Add key value q)).

Definition lruGet (key : string) : Body (any * bool) :=
  onLru (EvLruGet key) (lru_Get key).

Definition lruRemove (key : string) : Body unit :=
  onLru (EvLruRemove key) (λ q, (tt, lru_Remove key q)).

Definition lruPurge : Body unit :=
  onLru EvLruPurge (λ q, (tt, lru_Purge q)).

Definition IncrCounter (key : list string) (val : Z) : Body unit :=
  event (EvIncrCounter key val).

Definition liftHeap {A} (f : Heap → A * Heap) : Body A := λ ds st,
  let '(a, h) := f (heap st) in
  Normal a ds (mkState (cache st) h (trace st)).

(** *** Methods *)

Definition SetEnabled (enabled : bool) (st : State) : Result unit :=
  func (λ ds st,
          if enabled
          then Normal tt ds (set_cache (set_enabled 1 (cache st)) st)
          else Normal tt ds (set_cache (set_enabled 0 (cache st)) st)) st.

(** [for _, lock := range c.locks { lock.Lock(); defer lock.Unlock() }] *)
Fixpoint lock_the_world (ls : list LockEntry) : Body unit :=
  match ls with
  | [] => mret tt
  | lock :: ls =>
      Lock lock;;
      defer (DUnlock lock);;
      lock_the_world ls
  end.

Definition Purge (ctx : Context) : State → Result unit :=
  func (
    c ← getCache;
    lock_the_world (locks c);;
    lruPurge).

Definition Put (ctx : Context) (entry : ptr) : State → Result error :=
  func (
    (* entry != nil && !c.ShouldCache(entry.Key) *)
    forward ← match entry with
              | None => mret false
              | Some _ =>
                  e ← deref entry;
                  c ← getCache;
                  mret (negb (ShouldCache c (Key e)))
              end;
    if forward : bool then backendPut ctx entry
    else
      e ← deref entry;
      c ← getCache;
      let lock := LockForKey (locks c) (Key e) in
      Lock lock;;
      defer (DUnlock lock);;
      err ← backendPut ctx entry;
      match err with
      | None =>
          e ← deref entry;
          cacheEntry ← liftHeap (cloneEntry e);
          lruAdd (Key e) (AEntry (Some cacheEntry));;
          IncrCounter ["cache"; "write"] 1;;
          mret err
      | Some _ => mret err
      end).

Definition Get (ctx : Context) (key : string)
    : State → Result (ptr * error) :=
  func (
    c ← getCache;
    if negb (ShouldCache c key) then backendGet ctx key
    else
      let lock := LockForKey (locks c) key in
      RLock lock;;
      defer (DRUnlock lock);;
      (* Check the LRU first *)
      hit ← (if negb (cacheRefreshFromContext ctx) then
               '(raw, ok) ← lruGet key;
               if ok : bool then
                 match raw with
                 | ANil => mret (Some (None, None))
                 | AEntry p =>
                     IncrCounter ["cache"; "hit"] 1;;
                     mret (Some (p, None))
                 | _ =>
                     IncrCounter ["cache"; "hit"] 1;;
                     panic "interface conversion: interface {} is not *physical.Entry"
                 end
               else mret None
             else mret None);
      match hit with
      | Some r => mret r
      | None =>
          IncrCounter ["cache"; "miss"] 1;;
          (* Read from the underlying backend *)
          '(ent, err) ← backendGet ctx key;
          match err with
          | Some _ => mret (None, err)
          | None =>
              (* Cache the result, even if nil *)
              lruAdd key (AEntry ent);;
              mret (ent, None)
          end
      end).

Definition Delete (ctx : Context) (key : string) : State → Result error :=
  func (
    c ← getCache;
    if negb (ShouldCache c key) then backendDelete ctx key
    else
      let lock := LockForKey (locks c) key in
      Lock lock;;
      defer (DUnlock lock);;
      err ← backendDelete ctx key;
      match err with
      | None => lruRemove key;; mret err
      | Some _ => mret err
      end).

Definition List (ctx : Context) (prefix : string)
    : State → Result (list string * error) :=
  func (backendList ctx prefix).

Definition ListPage (ctx : Context) (prefix after : string) (limit : Z)
    : State → Result (list string * error) :=
  func (backendListPage ctx prefix after limit).

End Model.

Arguments Cache : clear implicits.
Arguments State : clear implicits.
Arguments Result : clear implicits.
Arguments Ok {B Q A}.
Arguments Panic {B Q A}.
Arguments Normal {B Q A}.
Arguments Panicking {B Q A}.

(** ** A two-queue eviction policy *)

Module TwoQueue.

(** Modelled from the spec: [lru.TwoQueueCache] of
    [github.com/hashicorp/golang-lru], whose source is not at hand.
    Section 4.1 of the spec describes an incoming FIFO queue capped at
    about a quarter of the capacity, a ghost queue of identifiers with a
    bound of its own, here half the capacity, and a hot LRU list that has
    the rest. Each list has its newest element first. *)
Record t := mk {
  size : nat;
  recentSize : nat;
  ghostSize : nat;
  recent : list (string * any);
  frequent : list (string * any);
  recentEvict : list string
}.

Definition has_key {V} (k : string) (l : list (string * V)) : bool :=
  existsb (λ kv, String.eqb k (fst kv)) l.

Fixpoint find {V} (k : string) (l : list (string * V)) : option V :=
  match l with
  | [] => None
  | (k', v) :: l => if String.eqb k k' then Some v else find k l
  end.

Definition remove_key {V} (k : string) (l : list (string * V))
    : list (string * V) :=
  List.filter (λ kv, negb (String.eqb k (fst kv))) l.

Definition overwrite {V} (k : string) (v : V) (l : list (string * V))
    : list (string * V) :=
  List.map (λ kv, if String.eqb k (fst kv) then (k, v) else kv) l.

Definition remove_id (k : string) (l : list string) : list string :=
  List.filter (λ k', negb (String.eqb k k')) l.

(** Construction fails if the capacity is not a positive integer. *)
Definition New2Q (size : Z) : option t :=
  if size <=? 0 then None
  else
    let n := Z.to_nat size in
    Some (mk n (n / 4) (n / 2) [] [] []).

(** If the incoming queue exceeds its share, its oldest entry is
    evicted and its identifier goes to the ghost queue. *)
Definition trim_recent (q : t) : t :=
  if (recentSize q <? length (recent q))%nat then
    match List.rev (recent q) with
    | [] => q
    | (k, _) :: older =>
        let ghost := if (ghostSize q <=? length (recentEvict q))%nat
                     then removelast (recentEvict q)
                     else recentEvict q in
        mk (size q) (recentSize q) (ghostSize q)
          (List.rev older) (frequent q) (k :: ghost)
    end
  else q.

(** If the hot list exceeds its share, its least recently used entry
    is evicted outright. *)
Definition trim_frequent (q : t) : t :=
  if (size q - recentSize q <? length (frequent q))%nat then
    mk (size q) (recentSize q) (ghostSize q)
      (recent q) (removelast (frequent q)) (recentEvict q)
  else q.

Definition Add (k : string) (v : any) (q : t) : t :=
  if has_key k (recent q) then
    mk (size q) (recentSize q) (ghostSize q)
      (overwrite k v (recent q)) (frequent q) (recentEvict q)
  else if has_key k (frequent q) then
    mk (size q) (recentSize q) (ghostSize q)
      (recent q) (overwrite k v (frequent q)) (recentEvict q)
  else if existsb (String.eqb k) (recentEvict q) then
    trim_frequent
      (mk (size q) (recentSize q) (ghostSize q)
         (recent q) ((k, v) :: frequent q) (remove_id k (recentEvict q)))
  else
    trim_frequent
      (trim_recent
         (mk (size q) (recentSize q) (ghostSize q)
            ((k, v) :: recent q) (frequent q) (recentEvict q))).

Definition Get (k : string) (q : t) : any * bool * t :=
  match find k (recent q) with
  | Some v =>
      (v, true,
       mk (size q) (recentSize q) (ghostSize q)
         (remove_key k (recent q)) ((k, v) :: frequent q) (recentEvict q))
  | None =>
      match find k (frequent q) with
      | Some v =>
          (v, true,
           mk (size q) (recentSize q) (ghostSize q)
             (recent q) ((k, v) :: remove_key k (frequent q))
             (recentEvict q))
      | None => (ANil, false, q)
      end
  end.

Definition Remove (k : string) (q : t) : t :=
  mk (size q) (recentSize q) (ghostSize q)
    (remove_key k (recent q)) (remove_key k (frequent q))
    (remove_id k (recentEvict q)).

Definition Purge (q : t) : t :=
  mk (size q) (recentSize q) (ghostSize q) [] [] [].

Definition resident (q : t) : list (string * any) :=
  recent q ++ frequent q.

End TwoQueue.

#[global] Instance TwoQueue_policy : EvictionPolicy TwoQueue.t := {|
  New2Q := TwoQueue.New2Q;
  lru_Add := TwoQueue.Add;
  lru_Get := TwoQueue.Get;
  lru_Remove := TwoQueue.Remove;
  lru_Purge := TwoQueue.Purge;
  lru_resident := TwoQueue.resident
|}.

(** ** An in-memory backend *)

Module Inmem.

(** A backend that keeps the bytes of each record by key and can be told
    to fail, for running the cache on concrete inputs. [Put] copies the
    bytes out of the entry and [Get] returns a newly allocated entry. *)
Record t := mk {
  store : list (string * list Byte.byte);
  failing : bool
}.

Definition failure : error := Some "inmem: simulated failure".

Definition Put (ctx : Context) (entry : ptr) (h : Heap) (b : t)
    : error * Heap * t :=
  if failing b then (failure, h, b)
  else
    match load_entry h entry with
    | None => (Some "inmem: nil entry", h, b)
    | Some e =>
        let bytes := default [] (bytes_of h (Value e)) in
        (None, h,
         mk ((Key e, bytes) :: TwoQueue.remove_key (Key e) (store b))
           (failing b))
    end.

Definition Get (ctx : Context) (key : string) (h : Heap) (b : t)
    : ptr * error * Heap * t :=
  if failing b then (None, failure, h, b)
  else
    match TwoQueue.find key (store b) with
    | None => (None, None, h, b)
    | Some bytes =>
        let a := length (arrays h) in
        let l := length (entries h) in
        let e := mkEntry key (Some (Slice a 0 (length bytes))) None false in
        (Some l, None, mkHeap (entries h ++ [e]) (arrays h ++ [bytes]), b)
    end.

Definition Delete (ctx : Context) (key : string) (h : Heap) (b : t)
    : error * Heap * t :=
  if failing b then (failure, h, b)
  else (None, h, mk (TwoQueue.remove_key key (store b)) (failing b)).

Definition List (ctx : Context) (prefix : string) (h : Heap) (b : t)
    : list string * error * Heap * t :=
  if failing b then ([], failure, h, b)
  else
    (List.filter (String.prefix prefix) (List.map fst (store b)), None, h, b).

Definition ListPage (ctx : Context) (prefix after : string) (limit : Z)
    (h : Heap) (b : t) : list string * error * Heap * t :=
  if failing b then ([], failure, h, b)
  else
    (take (Z.to_nat limit)
       (List.filter (λ k, String.prefix prefix k && String.ltb after k)
          (List.map fst (store b))),
     None, h, b).

End Inmem.

#[global] Instance Inmem_backend : Backend Inmem.t := {|
  backend_Put := Inmem.Put;
  backend_Get := Inmem.Get;
  backend_Delete := Inmem.Delete;
  backend_List := Inmem.List;
  backend_ListPage := Inmem.ListPage
|}.

(** A lock array of 256 entries; the lock of a key is chosen by the code of
    its first character. *)
Definition first_byte (key : string) : nat :=
  match key with
  | EmptyString => 0%nat
  | String a _ => Ascii.nat_of_ascii a
  end.

#[global] Instance Locks256 : Locksutil := {|
  CreateLocks := seq 0 256;
  LockForKey locks key := nth (first_byte key mod 256) locks 0%nat
|}.

(** ** Notions used in the statements *)

(** The cell at [l'] in [h'] is a copy of the entry [E] as it reads in [h]:
    same key and flag, same bytes, and backing arrays that did not exist
    in [h]. *)
Definition fresh_copy (h' : Heap) (l' : loc) (h : Heap) (E : Entry) : Prop :=
  (length (entries h) ≤ l')%nat ∧
  ∃ C,
    entries h' !! l' = Some C ∧
    Key C = Key E ∧
    SealWrap C = SealWrap E ∧
    bytes_of h' (Value C) = bytes_of h (Value E) ∧
    bytes_of h' (ValueHash C) = bytes_of h (ValueHash E) ∧
    (∀ s, Value C = Some s ∨ ValueHash C = Some s →
          (length (arrays h) ≤ s_array s)%nat).

(** The slice header and the backing array that [clone_bytes] produces for
    [src] on the heap [h]. *)
Definition cloned_slice (h : Heap) (src : option slice) : option slice :=
  (λ s, Slice (length (arrays h)) 0 (s_len s)) <$> src.

Definition cloned_array (h : Heap) (src : option slice)
    : list (list Byte.byte) :=
  match src with
  | Some s => [slice_bytes h s]
  | None => []
  end.

(** [h'] has every cell and array of [h], unchanged. *)
Definition heap_extends (h h' : Heap) : Prop :=
  (∃ new, entries h' = entries h ++ new) ∧
  (∃ new, arrays h' = arrays h ++ new).

Definition is_entry (v : any) : bool :=
  match v with
  | AEntry _ => true
  | _ => false
  end.

Section Reachability.
Context {B Q : Type} `{!Backend B} `{!EvictionPolicy Q} `{!Locksutil}.

Definition state_of {A} (r : Result B Q A) : State B Q :=
  match r with
  | Ok _ st => st
  | Panic _ st => st
  end.

(** Every value the policy holds is an [*Entry] boxed in an interface. *)
Definition only_entries (q : Q) : bool :=
  forallb (λ kv, is_entry (snd kv)) (lru_resident q).

Definition lru_only_entries (c : Cache B Q) : bool :=
  match lru c with
  | Some q => only_entries q
  | None => true
  end.

(** A property of the cache that no call to a collaborator breaks: it
    is indifferent to the backend and to the enable flag, and stable
    under the methods of the policy when the values added are entries. *)
Class CacheInvariant (I : Cache B Q → Prop) : Prop := {
  inv_backend : ∀ b c, I c → I (set_backend b c);
  inv_enabled : ∀ v c, I c → I (set_enabled v c);
  inv_Add : ∀ k p q c,
    lru c = Some q → I c →
    I (set_lru (Some (lru_Add k (AEntry p) q)) c);
  inv_Get : ∀ k q v ok q' c,
    lru c = Some q → lru_Get k q = (v, ok, q') → I c →
    I (set_lru (Some q') c);
  inv_Remove : ∀ k q c,
    lru c = Some q → I c → I (set_lru (Some (lru_Remove k q)) c);
  inv_Purge : ∀ q c,
    lru c = Some q → I c → I (set_lru (Some (lru_Purge q)) c)
}.

(** A body keeps [I] if it does so on either exit. *)
Definition keeps (I : Cache B Q → Prop) {A} (m : Body A) : Prop :=
  ∀ ds st,
    I (cache st) →
    match m ds st with
    | Normal _ _ st' | Panicking _ _ st' => I (cache st')
    end.

(** The states a cache built by [NewCache] goes through when it is used
    through its methods, while the code around it writes to the heap as
    it likes. *)
Inductive reachable : State B Q → Prop :=
| reach_NewCache b size logger sink h tr :
    reachable (mkState (NewCache b size logger sink) h tr)
| reach_SetEnabled on st :
    reachable st → reachable (state_of (SetEnabled on st))
| reach_Purge ctx st :
    reachable st → reachable (state_of (Purge ctx st))
| reach_Put ctx entry st :
    reachable st → reachable (state_of (Put ctx entry st))
| reach_Get ctx key st :
    reachable st → reachable (state_of (Get ctx key st))
| reach_Delete ctx key st :
    reachable st → reachable (state_of (Delete ctx key st))
| reach_List ctx prefix st :
    reachable st → reachable (state_of (List ctx prefix st))
| reach_ListPage ctx prefix after limit st :
    reachable st → reachable (state_of (ListPage ctx prefix after limit st))
| reach_heap h st :
    reachable st → reachable (mkState (cache st) h (trace st)).

(** A call on the cache, or a write to the heap by the code around it. *)
Inductive Call :=
| CallSetEnabled (on : bool)
| CallPurge (ctx : Context)
| CallPut (ctx : Context) (entry : ptr)
| CallGet (ctx : Context) (key : string)
| CallDelete (ctx : Context) (key : string)
| CallList (ctx : Context) (prefix : string)
| CallListPage (ctx : Context) (prefix after : string) (limit : Z)
| HeapWrite (h : Heap).

(** The state a call leaves, whichever way it ends, and the state after
    a run of calls, first to last. *)
Definition call (a : Call) (st : State B Q) : State B Q :=
  match a with
  | CallSetEnabled on => state_of (SetEnabled on st)
  | CallPurge ctx => state_of (Purge ctx st)
  | CallPut ctx entry => state_of (Put ctx entry st)
  | CallGet ctx key => state_of (Get ctx key st)
  | CallDelete ctx key => state_of (Delete ctx key st)
  | CallList ctx prefix => state_of (List ctx prefix st)
  | CallListPage ctx prefix after limit =>
      state_of (ListPage ctx prefix after limit st)
  | HeapWrite h => mkState (cache st) h (trace st)
  end.

Definition calls (l : list Call) (st : State B Q) : State B Q :=
  fold_left (λ st a, call a st) l st.

Definition is_SetEnabled (a : Call) : bool :=
  match a with
  | CallSetEnabled _ => true
  | _ => false
  end.

(** [SetEnabled(true)]. *)
Definition is_arming (a : Call) : bool :=
  match a with
  | CallSetEnabled on => on
  | _ => false
  end.

Definition is_Purge (a : Call) : bool :=
  match a with
  | CallPurge _ => true
  | _ => false
  end.

(** The events of a [Get] up to the backend read: the read lock, the
    probe unless a refresh is forced, and the miss counter. *)
Definition miss_prefix (ctx : Context) (key : string) (c : Cache B Q)
    : list Event :=
  [EvRLock (LockForKey (locks c) key)]
    ++ (if cacheRefreshFromContext ctx then [] else [EvLruGet key])
    ++ [EvIncrCounter ["cache"; "miss"] 1; EvBackendGet ctx key].

(** The events a call added to the trace. *)
Definition new_events (st st' : State B Q) : list Event :=
  drop (length (trace st)) (trace st').

End Reachability.

(** ** A cache to run *)

Module Demo.

Definition entry0 : Entry :=
  mkEntry "secret/foo" (Some (Slice 0 1 2)) (Some (Slice 1 0 1)) true.

Definition heap0 : Heap :=
  mkHeap [entry0]
    [[Byte.x01; Byte.x02; Byte.x03; Byte.x04]; [Byte.xaa]].

Definition new (failing : bool) : Cache Inmem.t TwoQueue.t :=
  NewCache (Inmem.mk [("secret/bar", [Byte.x10; Byte.x20])] failing) 8
    (mkLogger false) 0%nat.

(** The policy of a new cache of capacity 8. *)
Definition q0 : TwoQueue.t := TwoQueue.mk 8 2 4 [] [] [].

(** A fresh cache, as built. *)
Definition fresh : State Inmem.t TwoQueue.t := mkState (new false) heap0 [].

(** The same after [SetEnabled(true)]. *)
Definition armed : State Inmem.t TwoQueue.t :=
  state_of (SetEnabled true fresh).

(** An enabled cache over a backend that fails every call. *)
Definition broken : State Inmem.t TwoQueue.t :=
  state_of (SetEnabled true (mkState (new true) heap0 [])).

(** The armed cache after a [Put] of the entry at location 0. *)
Definition warm : State Inmem.t TwoQueue.t :=
  state_of (Put Background (Some 0%nat) armed).

(** The armed cache after a [Get] of a key the backend does not have. *)
Definition absent : State Inmem.t TwoQueue.t :=
  state_of (Get Background "secret/none" armed).

(** A context whose refresh value is a string, not a boolean. *)
Definition odd_ctx : Context :=
  WithValue Background refreshCacheCtxKey (AString "true").

(** The caller overwrites the first byte of the array [a]. *)
Definition scribble (a : loc) (st : State Inmem.t TwoQueue.t)
    : State Inmem.t TwoQueue.t :=
  mkState (cache st)
    (mkHeap (entries (heap st))
       (alter (λ buf, Byte.xff :: tail buf) a (arrays (heap st))))
    (trace st).

End Demo.

(** ** What a call did *)

Section Observations.
Context {B Q : Type} `{!Backend B} `{!EvictionPolicy Q} `{!Locksutil}.

(** The fields of the cache that are set once, and whether it has a
    policy. *)
Definition same_config (c c' : Cache B Q) : Prop :=
  locks c' = locks c ∧
  logger c' = logger c ∧
  enabled c' = enabled c ∧
  cacheExceptions c' = cacheExceptions c ∧
  metricSink c' = metricSink c ∧
  (is_Some (lru c') ↔ is_Some (lru c)).

(** The lock calls and the backend calls among the events of a call. *)
Definition lock_events (st st' : State B Q) : list Event :=
  List.filter is_lock_event (new_events st st').

Definition backend_events (st st' : State B Q) : list Event :=
  List.filter is_backend_event (new_events st st').

(** A [Get] that does not get as far as the backend: the key is cacheable,
    no refresh is forced, and the policy either answers or is nil. *)
Definition skips_backend (ctx : Context) (key : string) (c : Cache B Q)
    : bool :=
  ShouldCache c key && negb (cacheRefreshFromContext ctx) &&
  match lru c with
  | Some q => snd (fst (lru_Get key q))
  | None => true
  end.

(** The number of [Get] calls the metrics have counted, as hits or as
    misses. *)
Definition gets_counted (st : State B Q) : nat :=
  (counter ["cache"; "hit"] (trace st)
   + counter ["cache"; "miss"] (trace st))%nat.

End Observations.

(** ** More caches to run *)

Module Scenario.

(** An enabled cache whose policy is nil, as [NewCache] leaves it when
    [New2Q] fails. *)
Definition unbuilt : State Inmem.t TwoQueue.t :=
  mkState (set_lru None (cache Demo.armed)) Demo.heap0 [].

(** The warm cache over a backend that now fails every call. *)
Definition cut_off : State Inmem.t TwoQueue.t :=
  mkState
    (set_backend
       (Inmem.mk (Inmem.store (backend (cache Demo.warm))) true)
       (cache Demo.warm))
    (heap Demo.warm) (trace Demo.warm).

(** The policy of the warm cache, before and after a hit. *)
Definition q_warm : TwoQueue.t :=
  TwoQueue.mk 8 2 4 [("secret/foo", AEntry (Some 1%nat))] [] [].

Definition q_hot : TwoQueue.t :=
  TwoQueue.mk 8 2 4 [] [("secret/foo", AEntry (Some 1%nat))] [].

End Scenario.

(** * Properties *)

(** ** The clone taken by [Put] *)

Lemma slice_bytes_length h s :
  wf_slice h s → length (slice_bytes h s) = s_len s.
Proof.
  intros (buf & Hb & Hlen). unfold slice_bytes. rewrite Hb. cbn.
  rewrite length_take, length_drop. lia.
Qed.

Lemma slice_bytes_ext h h' s :
  wf_slice h s →
  (∀ a, a < length (arrays h) → arrays h' !! a = arrays h !! a)%nat →
  slice_bytes h' s = slice_bytes h s.
Proof.
  intros (buf & Hb & _) Hext. unfold slice_bytes.
  rewrite Hext; [done|]. by apply lookup_lt_Some in Hb.
Qed.

Lemma wf_opt_slice_ext h h' s :
  wf_opt_slice h s → (∃ new, arrays h' = arrays h ++ new) → wf_opt_slice h' s.
Proof.
  destruct s as [s|]; [|done]. intros (buf & Hb & Hlen) [new Hn].
  exists buf. split; [|done]. rewrite Hn. by apply lookup_app_l_Some.
Qed.

Lemma cloned_array_ext h h' s :
  wf_opt_slice h s → (∃ new, arrays h' = arrays h ++ new) →
  cloned_array h' s = cloned_array h s.
Proof.
  destruct s as [s|]; [|done]. intros Hwf [new Hn]. cbn. f_equal.
  apply slice_bytes_ext; [done|]. intros a Ha. rewrite Hn. by apply lookup_app_l.
Qed.

(** [make] then [copy] leaves the source bytes in the new array. *)
Lemma copy_into_fresh es arrs src :
  wf_slice (mkHeap es arrs) src →
  snd (copy (Slice (length arrs) 0 (s_len src)) src
         (mkHeap es (arrs ++ [replicate (s_len src) Byte.x00]))) =
  mkHeap es (arrs ++ [slice_bytes (mkHeap es arrs) src]).
Proof.
  intros Hwf. pose proof (slice_bytes_length _ _ Hwf) as Hl.
  unfold copy. cbn [snd entries arrays s_len s_off s_array]. f_equal.
  rewrite Nat.min_id.
  rewrite (slice_bytes_ext (mkHeap es arrs)); [|done|].
  2:{ cbn. intros a Ha. by rewrite lookup_app_l. }
  rewrite alter_app_r_alt by lia. rewrite Nat.sub_diag. cbn [alter list_alter].
  rewrite take_0, (take_ge (slice_bytes _ src)) by lia. cbn [app].
  rewrite Hl, drop_ge by (rewrite length_replicate; lia).
  by rewrite app_nil_r.
Qed.

Lemma clone_Value es c arrs src :
  wf_opt_slice (mkHeap (es ++ [c]) arrs) src → Value c = None →
  clone_bytes set_Value (length es) src (mkHeap (es ++ [c]) arrs) =
  mkHeap (es ++ [mkEntry (Key c) (cloned_slice (mkHeap (es ++ [c]) arrs) src)
                   (ValueHash c) (SealWrap c)])
         (arrs ++ cloned_array (mkHeap (es ++ [c]) arrs) src).
Proof.
  intros Hwf Hc.
  destruct src as [src|];
    cbn [clone_bytes cloned_slice cloned_array fmap option_fmap option_map].
  - unfold make. cbn [entries arrays]. unfold set_Value. cbn [entries arrays].
    rewrite list_lookup_middle by done. unfold store_entry. cbn [entries arrays].
    rewrite insert_app_r_alt by lia. rewrite Nat.sub_diag. cbn [insert list_insert].
    rewrite (copy_into_fresh (es ++ [_]) arrs src); [done|].
    destruct Hwf as (buf & Hb & Hlen). by exists buf.
  - rewrite app_nil_r. destruct c; cbn in *; by subst.
Qed.

Lemma clone_ValueHash es c arrs src :
  wf_opt_slice (mkHeap (es ++ [c]) arrs) src → ValueHash c = None →
  clone_bytes set_ValueHash (length es) src (mkHeap (es ++ [c]) arrs) =
  mkHeap (es ++ [mkEntry (Key c) (Value c)
                   (cloned_slice (mkHeap (es ++ [c]) arrs) src) (SealWrap c)])
         (arrs ++ cloned_array (mkHeap (es ++ [c]) arrs) src).
Proof.
  intros Hwf Hc.
  destruct src as [src|];
    cbn [clone_bytes cloned_slice cloned_array fmap option_fmap option_map].
  - unfold make. cbn [entries arrays]. unfold set_ValueHash. cbn [entries arrays].
    rewrite list_lookup_middle by done. unfold store_entry. cbn [entries arrays].
    rewrite insert_app_r_alt by lia. rewrite Nat.sub_diag. cbn [insert list_insert].
    rewrite (copy_into_fresh (es ++ [_]) arrs src); [done|].
    destruct Hwf as (buf & Hb & Hlen). by exists buf.
  - rewrite app_nil_r. destruct c; cbn in *; by subst.
Qed.

(** The clone in closed form: one new cell, and one new array for each
    non-nil field. *)
Lemma cloneEntry_eq E h :
  wf_opt_slice h (Value E) → wf_opt_slice h (ValueHash E) →
  cloneEntry E h =
  (length (entries h),
   mkHeap
     (entries h ++
        [mkEntry (Key E)
           (cloned_slice h (Value E))
           (cloned_slice (mkHeap (entries h) (arrays h ++ cloned_array h (Value E)))
              (ValueHash E))
           (SealWrap E)])
     (arrays h ++ cloned_array h (Value E) ++ cloned_array h (ValueHash E))).
Proof.
  intros HV HH. destruct h as [es arrs]. unfold cloneEntry, alloc_entry.
  cbn [entries arrays]. f_equal.
  rewrite clone_Value; [|done..].
  rewrite clone_ValueHash; [| |done].
  2:{ eapply wf_opt_slice_ext; [exact HH|]. cbn [arrays]. eauto. }
  cbn [Key Value ValueHash SealWrap].
  rewrite (cloned_array_ext (mkHeap es arrs) _ (ValueHash E));
    [|done|cbn [arrays]; eauto].
  rewrite (cloned_array_ext (mkHeap es arrs) _ (Value E));
    [|done|exists []; cbn [arrays]; by rewrite app_nil_r].
  by rewrite <- app_assoc.
Qed.

Lemma cloneEntry_extends E h :
  wf_opt_slice h (Value E) → wf_opt_slice h (ValueHash E) →
  heap_extends h (snd (cloneEntry E h)).
Proof.
  intros HV HH. rewrite cloneEntry_eq by done. split; cbn; eauto.
Qed.

(** What [Put] stores is a copy of the entry on arrays of its own. *)
Lemma cloneEntry_fresh_copy E h :
  wf_opt_slice h (Value E) → wf_opt_slice h (ValueHash E) →
  fresh_copy (snd (cloneEntry E h)) (fst (cloneEntry E h)) h E.
Proof.
  intros HV HH. rewrite cloneEntry_eq by done. cbn [fst snd].
  split; [done|]. eexists. split; [by apply list_lookup_middle|].
  cbn [Key Value ValueHash SealWrap]. split_and!; [done|done| | |].
  - destruct (Value E) as [s|]; [|done]. cbn. f_equal.
    unfold slice_bytes at 1. cbn.
    rewrite lookup_app_r by done. rewrite Nat.sub_diag. cbn.
    rewrite drop_0. apply take_ge. by rewrite slice_bytes_length.
  - destruct (ValueHash E) as [s|]; [|done]. cbn. f_equal.
    unfold slice_bytes at 1. cbn.
    rewrite app_assoc, lookup_app_r by done. rewrite Nat.sub_diag. cbn.
    rewrite drop_0. apply take_ge. by rewrite slice_bytes_length.
  - intros s [Hs|Hs].
    + destruct (Value E); simplify_eq/=. lia.
    + destruct (ValueHash E); simplify_eq/=. rewrite length_app. lia.
Qed.

(** ** The two-queue policy satisfies the laws *)

Module TwoQueueFacts.
Import TwoQueue.

Lemma find_elem_of {V} k (l : list (string * V)) v :
  find k l = Some v → (k, v) ∈ l.
Proof.
  induction l as [|[k' v'] l IH]; cbn; [done|].
  destruct (String.eqb_spec k k') as [->|Hne].
  - intros [= ->]. left.
  - intros Hf. right. by apply IH.
Qed.

Lemma remove_key_subseteq {V} k (l : list (string * V)) :
  remove_key k l ⊆ l.
Proof.
  intros x Hx. apply list_elem_of_In in Hx. apply list_elem_of_In.
  unfold remove_key in Hx. by apply filter_In in Hx as [Hx _].
Qed.

Lemma overwrite_subseteq {V} k v (l : list (string * V)) :
  overwrite k v l ⊆ (k, v) :: l.
Proof.
  intros x Hx. apply list_elem_of_In in Hx. unfold overwrite in Hx.
  apply in_map_iff in Hx as ([k' v'] & Hx & Hin). cbn in Hx.
  destruct (String.eqb k k'); subst.
  - left.
  - right. by apply list_elem_of_In.
Qed.

Lemma removelast_subseteq {V} (l : list V) : removelast l ⊆ l.
Proof.
  rewrite removelast_firstn_len. apply subseteq_take.
Qed.

Lemma trim_recent_subseteq q : resident (trim_recent q) ⊆ resident q.
Proof.
  unfold trim_recent, resident.
  destruct (recentSize q <? length (recent q))%nat; [|done].
  destruct (List.rev (recent q)) as [|[k v] older] eqn:Hrev; [done|]. cbn.
  intros x Hx. apply elem_of_app in Hx as [Hx|Hx]; apply elem_of_app.
  - left. apply list_elem_of_In, in_rev. rewrite Hrev. right.
    by apply in_rev, list_elem_of_In.
  - by right.
Qed.

Lemma trim_frequent_subseteq q : resident (trim_frequent q) ⊆ resident q.
Proof.
  unfold trim_frequent, resident.
  destruct (size q - recentSize q <? length (frequent q))%nat; [|done]. cbn.
  intros x Hx. apply elem_of_app in Hx as [Hx|Hx]; apply elem_of_app.
  - by left.
  - right. by apply removelast_subseteq.
Qed.

Lemma Add_subseteq k v q : resident (Add k v q) ⊆ (k, v) :: resident q.
Proof.
  unfold Add.
  destruct (has_key k (recent q)); [|destruct (has_key k (frequent q));
    [|destruct (existsb (String.eqb k) (recentEvict q))]].
  - unfold resident. cbn. intros x Hx.
    apply elem_of_app in Hx as [Hx|Hx].
    + apply overwrite_subseteq in Hx. set_solver.
    + set_solver.
  - unfold resident. cbn. intros x Hx.
    apply elem_of_app in Hx as [Hx|Hx].
    + set_solver.
    + apply overwrite_subseteq in Hx. set_solver.
  - etrans; [apply trim_frequent_subseteq|]. unfold resident. cbn. set_solver.
  - etrans; [apply trim_frequent_subseteq|].
    etrans; [apply trim_recent_subseteq|]. unfold resident. cbn. set_solver.
Qed.

Lemma Get_hit_resident k q v q' :
  Get k q = (v, true, q') →
  (k, v) ∈ resident q ∧ resident q' ⊆ resident q.
Proof.
  unfold Get, resident.
  destruct (find k (recent q)) as [v1|] eqn:H1.
  - intros [= <- <-]. apply find_elem_of in H1. cbn. split; [set_solver|].
    pose proof (remove_key_subseteq k (recent q)). set_solver.
  - destruct (find k (frequent q)) as [v2|] eqn:H2; [|done].
    intros [= <- <-]. apply find_elem_of in H2. cbn. split; [set_solver|].
    pose proof (remove_key_subseteq k (frequent q)). set_solver.
Qed.

Lemma Get_miss_unchanged k q v q' :
  Get k q = (v, false, q') → v = ANil ∧ q' = q.
Proof.
  unfold Get.
  destruct (find k (recent q)); [done|].
  destruct (find k (frequent q)); [done|]. by intros [= <- <-].
Qed.

Lemma Remove_subseteq k q : resident (Remove k q) ⊆ resident q.
Proof.
  unfold Remove, resident. cbn.
  pose proof (remove_key_subseteq k (recent q)).
  pose proof (remove_key_subseteq k (frequent q)). set_solver.
Qed.

Lemma New2Q_Some n : 0 < n → is_Some (New2Q n).
Proof.
  intros Hn. unfold New2Q. destruct (Z.leb_spec n 0); [lia|]. eauto.
Qed.

Lemma New2Q_None n : n ≤ 0 → New2Q n = None.
Proof.
  intros Hn. unfold New2Q. by destruct (Z.leb_spec n 0); [|lia].
Qed.

Lemma New2Q_empty n q : New2Q n = Some q → resident q = [].
Proof.
  unfold New2Q. destruct (n <=? 0); [done|]. by intros [= <-].
Qed.

End TwoQueueFacts.

#[global] Instance TwoQueue_laws : EvictionPolicyLaws TwoQueue.t.
Proof.
  split.
  - exact TwoQueueFacts.New2Q_empty.
  - exact TwoQueueFacts.Get_hit_resident.
  - exact TwoQueueFacts.Get_miss_unchanged.
  - exact TwoQueueFacts.Add_subseteq.
  - exact TwoQueueFacts.Remove_subseteq.
  - done.
Qed.

(** ** The methods, path by path *)

(** Every path of a method at once: [exec] opens the body, [paths] splits
    on each test it meets, [proj] reads the fields of the states. *)
Ltac exec :=
  unfold func, mbind, mret, Body_bind, Body_ret, IncrCounter, Lock, RLock,
    lruAdd, lruGet, lruRemove, lruPurge, getCache, deref, defer, event,
    onLru, backendPut, backendGet, backendDelete, backendList,
    backendListPage, liftHeap, panic.

Ltac proj :=
  cbn [cache heap trace emit set_cache set_lru set_backend set_enabled
       state_of run_defers run_deferred fold_left lru backend locks logger
       enabled cacheExceptions metricSink load_entry negb andb fst snd].

Ltac paths :=
  proj;
  repeat (match goal with
          | |- context [match ?x with _ => _ end] =>
              lazymatch x with
              | context [match _ with _ => _ end] => fail
              | _ => destruct x eqn:?
              end
          end; proj).

Section Proofs.
Context {B Q : Type} `{!Backend B} `{!EvictionPolicy Q} `{!Locksutil}.

Implicit Types (st : State B Q) (c : Cache B Q) (q : Q).

#[local] Abbreviation body := (@Body B Q).

#[local] Arguments cloneEntry : simpl never.

Ltac run :=
  unfold func, mbind, mret, Body_bind, Body_ret, getCache, deref, Lock,
    RLock, defer, event, IncrCounter, lruAdd, lruGet, lruRemove, lruPurge,
    onLru, backendPut, backendGet, backendDelete, backendList,
    backendListPage, liftHeap, panic;
  cbn [cache heap trace emit set_cache load_entry].

Ltac finish :=
  cbn; unfold run_defers, run_deferred, emit; cbn;
  rewrite <- ?app_assoc; cbn; reflexivity.

Ltac fields :=
  cbn [cache heap trace lru backend locks enabled cacheExceptions
       set_backend set_lru set_enabled].

Lemma set_lru_same c q : lru c = Some q → set_lru (Some q) c = c.
Proof. destruct c; cbn. by intros ->. Qed.

Lemma NewCache_disabled b size lg sink key :
  ShouldCache (NewCache b size lg sink : Cache B Q) key = false.
Proof. reflexivity. Qed.

(** *** Put *)

Lemma Put_forward ctx l E st err h' b' :
  load_entry (heap st) (Some l) = Some E →
  ShouldCache (cache st) (Key E) = false →
  backend_Put ctx (Some l) (heap st) (backend (cache st)) = (err, h', b') →
  Put ctx (Some l) st =
    Ok err (mkState (set_backend b' (cache st)) h'
              (trace st ++ [EvBackendPut ctx (Some l)])).
Proof.
  intros HE HS Hb. unfold Put. run. cbn in HE.
  rewrite HE. cbn. rewrite HS. cbn. rewrite Hb. finish.
Qed.

Lemma Put_failure ctx l E st msg h' b' :
  load_entry (heap st) (Some l) = Some E →
  ShouldCache (cache st) (Key E) = true →
  backend_Put ctx (Some l) (heap st) (backend (cache st))
    = (Some msg, h', b') →
  Put ctx (Some l) st =
    Ok (Some msg)
      (mkState (set_backend b' (cache st)) h'
         (trace st ++
            [EvLock (LockForKey (locks (cache st)) (Key E));
             EvBackendPut ctx (Some l);
             EvUnlock (LockForKey (locks (cache st)) (Key E))])).
Proof.
  intros HE HS Hb. unfold Put. run. cbn in HE.
  rewrite HE. cbn. rewrite HS. cbn. rewrite HE. cbn. rewrite Hb. finish.
Qed.

Lemma Put_success ctx l E E' st q h' b' :
  load_entry (heap st) (Some l) = Some E →
  ShouldCache (cache st) (Key E) = true →
  lru (cache st) = Some q →
  backend_Put ctx (Some l) (heap st) (backend (cache st)) = (None, h', b') →
  load_entry h' (Some l) = Some E' →
  Put ctx (Some l) st =
    Ok None
      (mkState
         (set_lru
            (Some (lru_Add (Key E')
                     (AEntry (Some (fst (cloneEntry E' h')))) q))
            (set_backend b' (cache st)))
         (snd (cloneEntry E' h'))
         (trace st ++
            [EvLock (LockForKey (locks (cache st)) (Key E));
             EvBackendPut ctx (Some l);
             EvLruAdd (Key E') (AEntry (Some (fst (cloneEntry E' h'))));
             EvIncrCounter ["cache"; "write"] 1;
             EvUnlock (LockForKey (locks (cache st)) (Key E))])).
Proof.
  intros HE HS Hq Hb HE'. unfold Put. run. cbn in HE, HE'.
  rewrite HE. cbn. rewrite HS. cbn. rewrite HE. cbn. rewrite Hb. cbn.
  rewrite HE'. cbn. destruct (cloneEntry E' h') as [l' h''] eqn:Hc. cbn.
  rewrite Hq. finish.
Qed.

(** *** Get *)

Lemma Get_forward ctx key st ent err h' b' :
  ShouldCache (cache st) key = false →
  backend_Get ctx key (heap st) (backend (cache st)) = (ent, err, h', b') →
  Get ctx key st =
    Ok (ent, err)
      (mkState (set_backend b' (cache st)) h'
         (trace st ++ [EvBackendGet ctx key])).
Proof.
  intros HS Hb. unfold Get. run. rewrite HS. cbn. rewrite Hb. finish.
Qed.

Lemma Get_hit_entry ctx key st q p q' :
  ShouldCache (cache st) key = true →
  cacheRefreshFromContext ctx = false →
  lru (cache st) = Some q →
  lru_Get key q = (AEntry p, true, q') →
  Get ctx key st =
    Ok (p, None)
      (mkState (set_lru (Some q') (cache st)) (heap st)
         (trace st ++
            [EvRLock (LockForKey (locks (cache st)) key);
             EvLruGet key;
             EvIncrCounter ["cache"; "hit"] 1;
             EvRUnlock (LockForKey (locks (cache st)) key)])).
Proof.
  intros HS Hr Hq Hg. unfold Get. run. rewrite HS, Hr. cbn.
  rewrite Hq, Hg. finish.
Qed.

Lemma Get_hit_nil ctx key st q q' :
  ShouldCache (cache st) key = true →
  cacheRefreshFromContext ctx = false →
  lru (cache st) = Some q →
  lru_Get key q = (ANil, true, q') →
  Get ctx key st =
    Ok (None, None)
      (mkState (set_lru (Some q') (cache st)) (heap st)
         (trace st ++
            [EvRLock (LockForKey (locks (cache st)) key);
             EvLruGet key;
             EvRUnlock (LockForKey (locks (cache st)) key)])).
Proof.
  intros HS Hr Hq Hg. unfold Get. run. rewrite HS, Hr. cbn.
  rewrite Hq, Hg. finish.
Qed.

Lemma Get_miss_failure ctx key st q ent msg h' b' :
  ShouldCache (cache st) key = true →
  lru (cache st) = Some q →
  (cacheRefreshFromContext ctx = true ∨ lru_Get key q = (ANil, false, q)) →
  backend_Get ctx key (heap st) (backend (cache st))
    = (ent, Some msg, h', b') →
  Get ctx key st =
    Ok (None, Some msg)
      (mkState (set_backend b' (cache st)) h'
         (trace st ++ miss_prefix ctx key (cache st)
            ++ [EvRUnlock (LockForKey (locks (cache st)) key)])).
Proof.
  intros HS Hq Hm Hb. unfold Get, miss_prefix. run. rewrite HS. cbn.
  destruct Hm as [Hr|Hg].
  - rewrite Hr. cbn. rewrite Hb. finish.
  - destruct (cacheRefreshFromContext ctx); cbn.
    + rewrite Hb. finish.
    + rewrite Hq, Hg. cbn. rewrite (set_lru_same _ _ Hq). rewrite Hb. finish.
Qed.

Lemma Get_miss_success ctx key st q ent h' b' :
  ShouldCache (cache st) key = true →
  lru (cache st) = Some q →
  (cacheRefreshFromContext ctx = true ∨ lru_Get key q = (ANil, false, q)) →
  backend_Get ctx key (heap st) (backend (cache st)) = (ent, None, h', b') →
  Get ctx key st =
    Ok (ent, None)
      (mkState
         (set_lru (Some (lru_Add key (AEntry ent) q))
            (set_backend b' (cache st)))
         h'
         (trace st ++ miss_prefix ctx key (cache st)
            ++ [EvLruAdd key (AEntry ent);
                EvRUnlock (LockForKey (locks (cache st)) key)])).
Proof.
  intros HS Hq Hm Hb. unfold Get, miss_prefix. run. rewrite HS. cbn.
  destruct Hm as [Hr|Hg].
  - rewrite Hr. cbn. rewrite Hb. cbn. rewrite Hq. finish.
  - destruct (cacheRefreshFromContext ctx); cbn.
    + rewrite Hb. cbn. rewrite Hq. finish.
    + rewrite Hq, Hg. cbn. rewrite (set_lru_same _ _ Hq). rewrite Hb. cbn.
      rewrite Hq. finish.
Qed.

(** *** Delete *)

Lemma Delete_forward ctx key st err h' b' :
  ShouldCache (cache st) key = false →
  backend_Delete ctx key (heap st) (backend (cache st)) = (err, h', b') →
  Delete ctx key st =
    Ok err
      (mkState (set_backend b' (cache st)) h'
         (trace st ++ [EvBackendDelete ctx key])).
Proof.
  intros HS Hb. unfold Delete. run. rewrite HS. cbn. rewrite Hb. finish.
Qed.

Lemma Delete_failure ctx key st msg h' b' :
  ShouldCache (cache st) key = true →
  backend_Delete ctx key (heap st) (backend (cache st))
    = (Some msg, h', b') →
  Delete ctx key st =
    Ok (Some msg)
      (mkState (set_backend b' (cache st)) h'
         (trace st ++
            [EvLock (LockForKey (locks (cache st)) key);
             EvBackendDelete ctx key;
             EvUnlock (LockForKey (locks (cache st)) key)])).
Proof.
  intros HS Hb. unfold Delete. run. rewrite HS. cbn. rewrite Hb. finish.
Qed.

Lemma Delete_success ctx key st q h' b' :
  ShouldCache (cache st) key = true →
  lru (cache st) = Some q →
  backend_Delete ctx key (heap st) (backend (cache st)) = (None, h', b') →
  Delete ctx key st =
    Ok None
      (mkState
         (set_lru (Some (lru_Remove key q)) (set_backend b' (cache st)))
         h'
         (trace st ++
            [EvLock (LockForKey (locks (cache st)) key);
             EvBackendDelete ctx key;
             EvLruRemove key;
             EvUnlock (LockForKey (locks (cache st)) key)])).
Proof.
  intros HS Hq Hb. unfold Delete. run. rewrite HS. cbn. rewrite Hb. cbn.
  rewrite Hq. finish.
Qed.

(** *** Purge *)

Lemma lock_the_world_run ls ds st :
  lock_the_world ls ds st =
    Normal tt (List.map DUnlock (rev ls) ++ ds)
      (mkState (cache st) (heap st) (trace st ++ List.map EvLock ls)).
Proof.
  revert ds st. induction ls as [|l ls IH]; intros ds st.
  - cbn. rewrite app_nil_r. by destruct st.
  - cbn [lock_the_world]. run. rewrite IH. cbn.
    rewrite map_app, <- !app_assoc. reflexivity.
Qed.

Lemma run_defers_unlock ls st :
  run_defers (List.map DUnlock ls) st =
    mkState (cache st) (heap st) (trace st ++ List.map EvUnlock ls).
Proof.
  revert st. induction ls as [|l ls IH]; intros st.
  - cbn. rewrite app_nil_r. by destruct st.
  - cbn. unfold run_defers in IH. rewrite IH. cbn.
    rewrite <- app_assoc. reflexivity.
Qed.

Lemma Purge_run ctx st q :
  lru (cache st) = Some q →
  Purge ctx st =
    Ok tt
      (mkState (set_lru (Some (lru_Purge q)) (cache st)) (heap st)
         (trace st ++ List.map EvLock (locks (cache st))
            ++ [EvLruPurge]
            ++ List.map EvUnlock (rev (locks (cache st))))).
Proof.
  intros Hq. unfold Purge. run. rewrite lock_the_world_run. cbn.
  rewrite Hq. cbn. rewrite app_nil_r, run_defers_unlock. cbn.
  rewrite <- !app_assoc. reflexivity.
Qed.

Lemma Purge_nil_lru ctx st :
  lru (cache st) = None →
  Purge ctx st =
    Panic nil_dereference
      (mkState (cache st) (heap st)
         (trace st ++ List.map EvLock (locks (cache st))
            ++ List.map EvUnlock (rev (locks (cache st))))).
Proof.
  intros Hq. unfold Purge. run. rewrite lock_the_world_run. cbn.
  rewrite Hq. cbn. rewrite app_nil_r, run_defers_unlock. cbn.
  rewrite <- !app_assoc. reflexivity.
Qed.

(** *** SetEnabled *)

Lemma SetEnabled_run on st :
  SetEnabled on st =
    Ok tt (mkState (set_enabled (if on then 1 else 0) (cache st))
             (heap st) (trace st)).
Proof. by destruct on. Qed.

(** *** The flag and the calls *)

(** No call but [SetEnabled] writes a field that is set once. *)
Lemma call_same_config a st :
  is_SetEnabled a = false → same_config (cache st) (cache (call a st)).
Proof.
  destruct a; intros Ha; try done; unfold call.
  - destruct (lru (cache st)) as [q|] eqn:Hq.
    + rewrite (Purge_run _ _ _ Hq). unfold same_config. proj.
      rewrite Hq. by split_and!.
    + rewrite (Purge_nil_lru _ _ Hq). unfold same_config. proj.
      by split_and!.
  - unfold Put. exec. paths. all: unfold same_config; proj; by split_and!.
  - unfold Get. exec. paths. all: unfold same_config; proj; by split_and!.
  - unfold Delete. exec. paths. all: unfold same_config; proj; by split_and!.
  - unfold List. exec. paths. all: unfold same_config; proj; by split_and!.
  - unfold ListPage. exec. paths.
    all: unfold same_config; proj; by split_and!.
Qed.

(** While the flag is off, [Put], [Get] and [Delete] go to the backend
    and leave the policy alone. *)
Lemma disabled_keeps_policy st ctx entry key :
  enabled (cache st) = 0 →
  lru (cache (state_of (Put ctx entry st))) = lru (cache st) ∧
  lru (cache (state_of (Get ctx key st))) = lru (cache st) ∧
  lru (cache (state_of (Delete ctx key st))) = lru (cache st).
Proof.
  intros Hoff.
  assert (∀ k, ShouldCache (cache st) k = false) as HS.
  { intros k. unfold ShouldCache. by rewrite Hoff. }
  split_and!.
  - destruct entry as [l|]; [|done].
    destruct (load_entry (heap st) (Some l)) as [E|] eqn:HE.
    + destruct (backend_Put ctx (Some l) (heap st) (backend (cache st)))
        as [[err h'] b'] eqn:Hb.
      by rewrite (Put_forward _ _ _ _ _ _ _ HE (HS _) Hb).
    + unfold Put. run. cbn in HE. by rewrite HE.
  - destruct (backend_Get ctx key (heap st) (backend (cache st)))
      as [[[ent err] h'] b'] eqn:Hb.
    by rewrite (Get_forward _ _ _ _ _ _ _ (HS _) Hb).
  - destruct (backend_Delete ctx key (heap st) (backend (cache st)))
      as [[err h'] b'] eqn:Hb.
    by rewrite (Delete_forward _ _ _ _ _ _ (HS _) Hb).
Qed.

(** A call on a disabled cache that is neither [SetEnabled(true)] nor
    [Purge] leaves it disabled, with the policy it had. *)
Lemma disabled_call a st :
  enabled (cache st) = 0 →
  is_arming a = false →
  enabled (cache (call a st)) = 0 ∧
  (is_Purge a = false → lru (cache (call a st)) = lru (cache st)).
Proof.
  intros Hoff Harm. split.
  - destruct (is_SetEnabled a) eqn:HS.
    + destruct a as [on| | | | | | |]; try done.
      cbn in Harm. subst on. cbn [call]. by rewrite SetEnabled_run.
    + by destruct (call_same_config a st HS) as (_ & _ & -> & _).
  - intros Hpurge.
    destruct a as [on| |ctx entry|ctx key|ctx key|ctx prefix
                   |ctx prefix after limit|h]; try done; cbn [call].
    + by rewrite SetEnabled_run.
    + by destruct (disabled_keeps_policy st ctx entry "" Hoff) as (-> & _).
    + by destruct (disabled_keeps_policy st ctx None key Hoff) as (_ & -> & _).
    + by destruct (disabled_keeps_policy st ctx None key Hoff) as (_ & _ & ->).
    + unfold List. exec. paths. all: done.
    + unfold ListPage. exec. paths. all: done.
Qed.

Lemma disabled_calls l st :
  enabled (cache st) = 0 →
  forallb (λ a, negb (is_arming a)) l = true →
  enabled (cache (calls l st)) = 0 ∧
  (forallb (λ a, negb (is_Purge a)) l = true →
     lru (cache (calls l st)) = lru (cache st)).
Proof.
  revert st. induction l as [|a l IH]; intros st Hoff Hl; [done|].
  change (calls (a :: l) st) with (calls l (call a st)).
  cbn [forallb] in Hl. apply andb_prop in Hl as [Ha Hl].
  apply negb_true_iff in Ha.
  destruct (disabled_call a st Hoff Ha) as [Hoff' Hq].
  destruct (IH _ Hoff' Hl) as [Hoff'' Hq'']. split; [done|].
  cbn [forallb]. intros [Hp Hps]%andb_prop. apply negb_true_iff in Hp.
  by rewrite Hq'', Hq.
Qed.

(** *** What the policy holds *)

Context `{!EvictionPolicyLaws Q}.

Lemma only_entries_spec q :
  only_entries q = true ↔
  ∀ k v, (k, v) ∈ lru_resident q → is_entry v = true.
Proof.
  unfold only_entries. rewrite forallb_forall. split.
  - intros Hall k v Hin. by apply (Hall (k, v)), list_elem_of_In.
  - intros Hall [k v] Hin. by apply (Hall k), list_elem_of_In.
Qed.

Lemma only_entries_subseteq q q' :
  lru_resident q' ⊆ lru_resident q →
  only_entries q = true → only_entries q' = true.
Proof.
  rewrite !only_entries_spec. intros Hsub Hall k v Hin.
  apply (Hall k). by apply Hsub.
Qed.

Lemma only_entries_Add k p q :
  only_entries q = true → only_entries (lru_Add k (AEntry p) q) = true.
Proof.
  rewrite !only_entries_spec. intros Hall k' v Hin.
  apply lru_Add_resident in Hin. apply elem_of_cons in Hin as [[= -> ->]|Hin].
  - done.
  - by apply (Hall k').
Qed.

Lemma only_entries_Get k q v ok q' :
  lru_Get k q = (v, ok, q') →
  only_entries q = true → only_entries q' = true.
Proof.
  destruct ok; intros Hg.
  - apply lru_Get_hit in Hg as [_ Hsub]. by apply only_entries_subseteq.
  - by apply lru_Get_miss in Hg as [_ ->].
Qed.

Lemma only_entries_Remove k q :
  only_entries q = true → only_entries (lru_Remove k q) = true.
Proof. apply only_entries_subseteq, lru_Remove_resident. Qed.

Lemma only_entries_Purge q : only_entries (lru_Purge q) = true.
Proof. unfold only_entries. by rewrite lru_Purge_resident. Qed.

(** A hit on a policy that holds entries only yields an entry. *)
Lemma hit_is_entry k q raw q' :
  only_entries q = true →
  lru_Get k q = (raw, true, q') → ∃ p, raw = AEntry p.
Proof.
  intros Hall Hg. apply lru_Get_hit in Hg as [Hin _].
  rewrite only_entries_spec in Hall. apply Hall in Hin.
  destruct raw; try done. eauto.
Qed.

(** Nothing is resident after a purge, so every probe misses. *)
Lemma miss_after_Purge k q :
  lru_Get k (lru_Purge q) = (ANil, false, lru_Purge q).
Proof.
  destruct (lru_Get k (lru_Purge q)) as [[v ok] q'] eqn:Hg. destruct ok.
  - apply lru_Get_hit in Hg as [Hin _].
    rewrite lru_Purge_resident in Hin. by apply elem_of_nil in Hin.
  - by apply lru_Get_miss in Hg as [-> ->].
Qed.

Section Invariants.
Context (I : Cache B Q → Prop) `{!CacheInvariant I}.

Lemma keeps_ret {A} (a : A) : keeps I (mret a).
Proof. by intros ds st. Qed.

Lemma keeps_bind {A A'} (m : body A) (f : A → body A') :
  keeps I m → (∀ a, keeps I (f a)) → keeps I (m ≫= f).
Proof.
  intros Hm Hf ds st Hinv. specialize (Hm ds st Hinv).
  unfold mbind, Body_bind. destruct (m ds st); [by apply Hf|done].
Qed.

Lemma keeps_getCache : keeps I getCache.
Proof. by intros ds st. Qed.

Lemma keeps_event e : keeps I (event e).
Proof. by intros ds st. Qed.

Lemma keeps_defer d : keeps I (defer d).
Proof. by intros ds st. Qed.

Lemma keeps_panic {A} msg : keeps I (panic (A := A) msg).
Proof. by intros ds st. Qed.

Lemma keeps_deref p : keeps I (deref p).
Proof. intros ds st Hinv. unfold deref. by destruct (load_entry _ _). Qed.

Lemma keeps_liftHeap {A} (f : Heap → A * Heap) : keeps I (liftHeap f).
Proof. intros ds st Hinv. unfold liftHeap. by destruct (f _). Qed.

Lemma keeps_backendPut ctx entry : keeps I (backendPut ctx entry).
Proof.
  intros ds st Hinv. unfold backendPut. cbn.
  destruct (backend_Put _ _ _ _) as [[err h] b]. by apply inv_backend.
Qed.

Lemma keeps_backendGet ctx key : keeps I (backendGet ctx key).
Proof.
  intros ds st Hinv. unfold backendGet. cbn.
  destruct (backend_Get _ _ _ _) as [[[ent err] h] b]. by apply inv_backend.
Qed.

Lemma keeps_backendDelete ctx key : keeps I (backendDelete ctx key).
Proof.
  intros ds st Hinv. unfold backendDelete. cbn.
  destruct (backend_Delete _ _ _ _) as [[err h] b]. by apply inv_backend.
Qed.

Lemma keeps_backendList ctx prefix : keeps I (backendList ctx prefix).
Proof.
  intros ds st Hinv. unfold backendList. cbn.
  destruct (backend_List _ _ _ _) as [[[keys err] h] b].
  by apply inv_backend.
Qed.

Lemma keeps_backendListPage ctx prefix after limit :
  keeps I (backendListPage ctx prefix after limit).
Proof.
  intros ds st Hinv. unfold backendListPage. cbn.
  destruct (backend_ListPage _ _ _ _ _ _) as [[[keys err] h] b].
  by apply inv_backend.
Qed.

Lemma keeps_lruAdd key p : keeps I (lruAdd key (AEntry p)).
Proof.
  intros ds st Hinv. unfold lruAdd, onLru.
  destruct (lru (cache st)) as [q|] eqn:Hq; [|done]. cbn.
  by apply inv_Add.
Qed.

Lemma keeps_lruGet key : keeps I (lruGet key).
Proof.
  intros ds st Hinv. unfold lruGet, onLru.
  destruct (lru (cache st)) as [q|] eqn:Hq; [|done].
  destruct (lru_Get key q) as [[v ok] q'] eqn:Hg. cbn.
  by eapply inv_Get.
Qed.

Lemma keeps_lruRemove key : keeps I (lruRemove key).
Proof.
  intros ds st Hinv. unfold lruRemove, onLru.
  destruct (lru (cache st)) as [q|] eqn:Hq; [|done]. cbn.
  by apply inv_Remove.
Qed.

Lemma keeps_lruPurge : keeps I lruPurge.
Proof.
  intros ds st Hinv. unfold lruPurge, onLru.
  destruct (lru (cache st)) as [q|] eqn:Hq; [|done]. cbn.
  by apply inv_Purge.
Qed.

Lemma keeps_lock_the_world ls : keeps I (lock_the_world ls).
Proof.
  induction ls as [|l ls IH]; cbn [lock_the_world].
  - apply keeps_ret.
  - apply keeps_bind; [apply keeps_event|intros _].
    apply keeps_bind; [apply keeps_defer|by intros _].
Qed.

Lemma cache_run_defers ds st : cache (run_defers ds st) = cache st.
Proof.
  revert st. induction ds as [|d ds IH]; intros st; [done|].
  cbn. unfold run_defers in IH. rewrite IH. by destruct d.
Qed.

Lemma keeps_func {A} (m : body A) st :
  keeps I m → I (cache st) → I (cache (state_of (func m st))).
Proof.
  intros Hm Hinv. specialize (Hm [] st Hinv). unfold func.
  destruct (m [] st); cbn; by rewrite cache_run_defers.
Qed.

Create HintDb keeps.
Hint Resolve keeps_ret keeps_getCache keeps_event keeps_defer keeps_panic
  keeps_deref keeps_liftHeap keeps_backendPut keeps_backendGet
  keeps_backendDelete keeps_backendList keeps_backendListPage keeps_lruAdd
  keeps_lruGet keeps_lruRemove keeps_lruPurge keeps_lock_the_world : keeps.

Ltac keeps_step :=
  lazymatch goal with
  | |- keeps _ (_ ≫= _) => apply keeps_bind; [|intros ?]
  | |- keeps _ (match ?x with _ => _ end) => destruct x
  | |- keeps _ (Lock _) => apply keeps_event
  | |- keeps _ (RLock _) => apply keeps_event
  | |- keeps _ (IncrCounter _ _) => apply keeps_event
  | |- keeps _ _ => by auto with keeps
  end.

Lemma Put_keeps ctx entry st :
  I (cache st) → I (cache (state_of (Put ctx entry st))).
Proof. unfold Put. apply keeps_func. repeat keeps_step. Qed.

Lemma Get_keeps ctx key st :
  I (cache st) → I (cache (state_of (Get ctx key st))).
Proof. unfold Get. apply keeps_func. repeat keeps_step. Qed.

Lemma Delete_keeps ctx key st :
  I (cache st) → I (cache (state_of (Delete ctx key st))).
Proof. unfold Delete. apply keeps_func. repeat keeps_step. Qed.

Lemma Purge_keeps ctx st :
  I (cache st) → I (cache (state_of (Purge ctx st))).
Proof. unfold Purge. apply keeps_func. repeat keeps_step. Qed.

(** An invariant that holds of every new cache holds in every state
    the cache reaches. *)
Lemma reachable_invariant st :
  (∀ b size lg sink, I (NewCache b size lg sink)) →
  reachable st → I (cache st).
Proof.
  intros Hnew.
  induction 1 as [b size lg sink h tr|on st _ IH|ctx st _ IH|ctx e st _ IH
                 |ctx k st _ IH|ctx k st _ IH|ctx pr st _ IH
                 |ctx pr af lim st _ IH|h st _ IH].
  - apply Hnew.
  - rewrite SetEnabled_run. by apply inv_enabled.
  - by apply Purge_keeps.
  - by apply Put_keeps.
  - by apply Get_keeps.
  - by apply Delete_keeps.
  - revert IH. apply keeps_func. auto with keeps.
  - revert IH. apply keeps_func. auto with keeps.
  - done.
Qed.

End Invariants.

(** The lock array is the one [NewCache] made. *)
#[local] Instance locks_invariant ls : CacheInvariant (λ c, locks c = ls).
Proof. by split. Qed.

Lemma reachable_locks st : reachable st → locks (cache st) = CreateLocks.
Proof. by apply (reachable_invariant (λ c, locks c = CreateLocks)). Qed.

#[local] Instance only_entries_invariant :
  CacheInvariant (λ c, lru_only_entries c = true).
Proof.
  unfold lru_only_entries. split; try done.
  - intros k p q c -> Hq. cbn. by apply only_entries_Add.
  - intros k q v ok q' c -> Hg Hq. cbn. by eapply only_entries_Get.
  - intros k q c -> Hq. cbn. by apply only_entries_Remove.
  - intros q c _ _. cbn. apply only_entries_Purge.
Qed.

(** In every state the cache reaches, the policy holds entries only: the
    [raw == nil] branch of [Get] is never taken. *)
Lemma reachable_only_entries st :
  reachable st → lru_only_entries (cache st) = true.
Proof.
  apply (reachable_invariant (λ c, lru_only_entries c = true)).
  intros b size lg sink. unfold lru_only_entries, NewCache. cbn.
  destruct (New2Q _) as [q|] eqn:Hn; [|done].
  unfold only_entries. by rewrite (New2Q_resident _ _ Hn).
Qed.

(** *** Traces *)

Lemma counter_app key tr tr' :
  counter key (tr ++ tr') = (counter key tr + counter key tr')%nat.
Proof. unfold counter. by rewrite filter_app, length_app. Qed.

Lemma new_events_app st tr h c :
  new_events st (mkState c h (trace st ++ tr)) = tr.
Proof. unfold new_events. cbn. by rewrite drop_app_length. Qed.

Ltac count :=
  cbn [app]; rewrite ?counter_app;
  repeat match goal with
  | |- context [counter ?k (?e :: ?tr)] =>
      let n := eval cbv in (counter k (e :: tr)) in
      change (counter k (e :: tr)) with n
  end;
  lia.

(** ** The write path *)

(** C1. [Put] of a non-nil entry whose key is cacheable takes the lock of
    the key and writes the entry to the backend. If the backend returns
    an error, [Put] returns that error, the policy is what it was and
    neither the policy nor the write counter is touched. If the backend
    returns nil, a copy of the entry on arrays of its own is added to the
    policy under the entry's key and the write counter is incremented
    once, after the backend write. The copy is taken of the entry as it
    reads when the backend returns, [E'], which is [E] unless the backend
    wrote to it. *)
Theorem Put_write_through ctx l E st q err h' b' :
  load_entry (heap st) (Some l) = Some E →
  ShouldCache (cache st) (Key E) = true →
  lru (cache st) = Some q →
  backend_Put ctx (Some l) (heap st) (backend (cache st)) = (err, h', b') →
  let lock := LockForKey (locks (cache st)) (Key E) in
  match err with
  | Some _ =>
      ∃ st',
        Put ctx (Some l) st = Ok err st' ∧
        lru (cache st') = lru (cache st) ∧
        backend (cache st') = b' ∧
        heap st' = h' ∧
        trace st' =
          trace st ++ [EvLock lock; EvBackendPut ctx (Some l); EvUnlock lock] ∧
        counter ["cache"; "write"] (trace st') =
          counter ["cache"; "write"] (trace st)
  | None =>
      ∀ E',
        load_entry h' (Some l) = Some E' →
        wf_opt_slice h' (Value E') →
        wf_opt_slice h' (ValueHash E') →
        ∃ st' l',
          Put ctx (Some l) st = Ok None st' ∧
          lru (cache st') =
            Some (lru_Add (Key E') (AEntry (Some l')) q) ∧
          fresh_copy (heap st') l' h' E' ∧
          heap_extends h' (heap st') ∧
          backend (cache st') = b' ∧
          trace st' =
            trace st ++
              [EvLock lock; EvBackendPut ctx (Some l);
               EvLruAdd (Key E') (AEntry (Some l'));
               EvIncrCounter ["cache"; "write"] 1; EvUnlock lock] ∧
          counter ["cache"; "write"] (trace st') =
            S (counter ["cache"; "write"] (trace st))
  end.
Proof.
  intros HE HS Hq Hb lock. destruct err as [msg|].
  - eexists. split; [by eapply Put_failure|]. fields.
    split_and!; try done.
    count.
  - intros E' HE' HV HH. eexists _, _.
    split; [by eapply Put_success|]. fields.
    split_and!; try done.
    + by apply cloneEntry_fresh_copy.
    + by apply cloneEntry_extends.
    + count.
Qed.

(** C2, at the nil entry. The guard [entry != nil && ...] sends a nil
    entry past the forwarding branch, and the next statement reads
    [entry.Key]: [Put] panics before any backend call, lock or trace
    event. *)
Theorem Put_nil_entry_panics ctx st :
  Put ctx None st = Panic nil_dereference st.
Proof. reflexivity. Qed.

(** ** The read path *)

(** C4. In a state the cache can reach, a [Get] without forced refresh on
    a cacheable key that the policy holds returns what the policy holds,
    increments the hit counter once and calls no backend. The value held
    is always a boxed [*Entry]; the nil pointer among them is the record
    of a backend read that found nothing, and it is returned the same
    way. *)
Theorem Get_hit_returns_cached ctx key st q raw q' :
  reachable st →
  ShouldCache (cache st) key = true →
  cacheRefreshFromContext ctx = false →
  lru (cache st) = Some q →
  lru_Get key q = (raw, true, q') →
  ∃ p st',
    raw = AEntry p ∧
    Get ctx key st = Ok (p, None) st' ∧
    counter ["cache"; "hit"] (trace st') =
      S (counter ["cache"; "hit"] (trace st)) ∧
    forallb (λ e, negb (is_backend_event e)) (new_events st st') = true ∧
    backend (cache st') = backend (cache st) ∧
    heap st' = heap st ∧
    lru (cache st') = Some q' ∧
    trace st' =
      trace st ++
        [EvRLock (LockForKey (locks (cache st)) key); EvLruGet key;
         EvIncrCounter ["cache"; "hit"] 1;
         EvRUnlock (LockForKey (locks (cache st)) key)].
Proof.
  intros Hreach HS Hr Hq Hg.
  apply reachable_only_entries in Hreach.
  unfold lru_only_entries in Hreach. rewrite Hq in Hreach.
  destruct (hit_is_entry _ _ _ _ Hreach Hg) as [p ->].
  eexists p, _. split; [done|].
  split; [by eapply Get_hit_entry|].
  rewrite new_events_app. fields. split_and!; try done. count.
Qed.

(** C5. A [Get] on a cacheable key that misses the policy, or that is
    asked to refresh, increments the miss counter once and reads the
    backend. On a backend error it returns that error and the policy is
    what it was. Otherwise the backend's result, nil included, is added
    to the policy as a boxed [*Entry] and returned. *)
Theorem Get_miss_reads_backend ctx key st q ent err h' b' :
  ShouldCache (cache st) key = true →
  lru (cache st) = Some q →
  cacheRefreshFromContext ctx = true ∨ snd (fst (lru_Get key q)) = false →
  backend_Get ctx key (heap st) (backend (cache st)) = (ent, err, h', b') →
  ∃ st',
    Get ctx key st = Ok (match err with Some _ => None | None => ent end, err) st' ∧
    counter ["cache"; "miss"] (trace st') =
      S (counter ["cache"; "miss"] (trace st)) ∧
    lru (cache st') =
      match err with
      | Some _ => Some q
      | None => Some (lru_Add key (AEntry ent) q)
      end ∧
    backend (cache st') = b' ∧
    heap st' = h' ∧
    trace st' =
      trace st ++ miss_prefix ctx key (cache st)
        ++ match err with
           | Some _ => []
           | None => [EvLruAdd key (AEntry ent)]
           end
        ++ [EvRUnlock (LockForKey (locks (cache st)) key)].
Proof.
  intros HS Hq Hm Hb.
  assert (cacheRefreshFromContext ctx = true
          ∨ lru_Get key q = (ANil, false, q)) as Hm'.
  { destruct Hm as [Hr|Hmiss]; [by left|right].
    destruct (lru_Get key q) as [[v ok] q1] eqn:Hg. cbn in Hmiss. subst ok.
    by apply lru_Get_miss in Hg as [-> ->]. }
  destruct err as [msg|].
  - eexists. split; [by eapply Get_miss_failure|]. fields.
    split_and!; try done.
    unfold miss_prefix. destruct (cacheRefreshFromContext ctx); count.
  - eexists. split; [by eapply Get_miss_success|]. fields.
    split_and!; try done.
    unfold miss_prefix. destruct (cacheRefreshFromContext ctx); count.
Qed.

(** ** Delete *)

(** C6. [Delete] on a key that is not cacheable only calls the backend.
    On a cacheable key it takes the lock of the key and deletes from the
    backend; the key is removed from the policy if the backend returns
    nil, and on an error the error is returned and the policy is what it
    was. *)
Theorem Delete_write_through ctx key st err h' b' :
  backend_Delete ctx key (heap st) (backend (cache st)) = (err, h', b') →
  let lock := LockForKey (locks (cache st)) key in
  (ShouldCache (cache st) key = false →
     ∃ st',
       Delete ctx key st = Ok err st' ∧
       lru (cache st') = lru (cache st) ∧
       backend (cache st') = b' ∧ heap st' = h' ∧
       trace st' = trace st ++ [EvBackendDelete ctx key]) ∧
  (ShouldCache (cache st) key = true →
     ∀ q, lru (cache st) = Some q →
     ∃ st',
       Delete ctx key st = Ok err st' ∧
       lru (cache st') =
         match err with
         | Some _ => Some q
         | None => Some (lru_Remove key q)
         end ∧
       backend (cache st') = b' ∧ heap st' = h' ∧
       trace st' =
         trace st ++ [EvLock lock; EvBackendDelete ctx key]
           ++ match err with
              | Some _ => []
              | None => [EvLruRemove key]
              end
           ++ [EvUnlock lock]).
Proof.
  intros Hb lock. split.
  - intros HS. eexists. split; [by eapply Delete_forward|]. by fields.
  - intros HS q Hq. destruct err as [msg|].
    + eexists. split; [by eapply Delete_failure|]. by fields.
    + eexists. split; [by eapply Delete_success|]. by fields.
Qed.

(** ** Purge *)

Lemma filter_lock_events ls :
  List.filter is_lock_event (List.map EvLock ls) = List.map EvLock ls.
Proof. induction ls as [|l ls IH]; cbn; by rewrite ?IH. Qed.

Lemma filter_unlock_events ls :
  List.filter is_lock_event (List.map EvUnlock ls) = List.map EvUnlock ls.
Proof. induction ls as [|l ls IH]; cbn; by rewrite ?IH. Qed.

(** C7. On either exit, [Purge] takes the locks in the order of the lock
    array and releases every one of them, last taken first; in a state
    the cache reaches the array is the one [NewCache] made, so the order
    is the same on every call. With a policy in place it ends normally,
    the policy is purged between the last lock and the first unlock,
    nothing is resident afterwards, and the next [Get] of any cacheable
    key reads the backend. *)
Theorem Purge_locks_the_world ctx st :
  let ls := locks (cache st) in
  (reachable st → ls = CreateLocks) ∧
  List.filter is_lock_event (new_events st (state_of (Purge ctx st))) =
    List.map EvLock ls ++ List.map EvUnlock (rev ls) ∧
  ∀ q, lru (cache st) = Some q →
    ∃ st',
      Purge ctx st = Ok tt st' ∧
      trace st' =
        trace st ++ List.map EvLock ls ++ [EvLruPurge]
          ++ List.map EvUnlock (rev ls) ∧
      lru (cache st') = Some (lru_Purge q) ∧
      lru_resident (lru_Purge q) = [] ∧
      backend (cache st') = backend (cache st) ∧
      enabled (cache st') = enabled (cache st) ∧
      heap st' = heap st ∧
      ∀ ctx' key,
        ShouldCache (cache st') key = true →
        ∃ r st'',
          Get ctx' key st' = Ok r st'' ∧
          EvBackendGet ctx' key ∈ new_events st' st''.
Proof.
  intros ls. split; [apply reachable_locks|]. split.
  - destruct (lru (cache st)) as [q|] eqn:Hq.
    + rewrite (Purge_run _ _ _ Hq). cbn [state_of].
      rewrite new_events_app, !List.filter_app. cbn [List.filter is_lock_event app].
      by rewrite filter_lock_events, filter_unlock_events.
    + rewrite (Purge_nil_lru _ _ Hq). cbn [state_of].
      rewrite new_events_app, !List.filter_app. cbn [List.filter is_lock_event app].
      by rewrite filter_lock_events, filter_unlock_events.
  - intros q Hq. eexists. split; [by apply Purge_run|]. fields.
    split_and!; try done; [apply lru_Purge_resident|].
    intros ctx' key HS.
    match goal with
    | |- context [Get ctx' key ?s] => set (st' := s) in *
    end.
    destruct (backend_Get ctx' key (heap st') (backend (cache st')))
      as [[[ent err] h'] b'] eqn:Hb.
    assert (cacheRefreshFromContext ctx' = true
            ∨ lru_Get key (lru_Purge q)
              = (ANil, false, lru_Purge q)) as Hm
      by (right; apply miss_after_Purge).
    assert (∀ tl, EvBackendGet ctx' key
                    ∈ miss_prefix ctx' key (cache st') ++ tl) as Hin.
    { intros tl. unfold miss_prefix. set_solver. }
    destruct err as [msg|].
    + eexists _, _. split; [by eapply Get_miss_failure|].
      rewrite new_events_app. apply Hin.
    + eexists _, _. split; [by eapply Get_miss_success|].
      rewrite new_events_app. apply Hin.
Qed.

(** ** The enable flag *)

(** C8. A new cache caches no key, and it stays so through every run of
    calls and heap writes in which [SetEnabled(true)] does not occur: the
    flag is still 0 and no key is cached. [SetEnabled] ends normally,
    writes the flag and nothing else, and adds no event to the trace: the
    policy, the backend, the locks, the logger, the exceptions, the
    metric sink and the heap are what they were. So the policy after
    [SetEnabled(false)] followed by [SetEnabled(true)] is the policy
    before, also with calls in between, as long as none of them is
    [Purge] or [SetEnabled(true)]; and once enabled a key is cached
    unless it is an exception. While the flag is off, [Put], [Get] and
    [Delete] leave the policy alone. No call other than [SetEnabled]
    writes the flag, nor any other field that is set once. *)
Theorem SetEnabled_only_flips_flag :
  (∀ b size lg sink key,
     enabled (NewCache b size lg sink : Cache B Q) = 0 ∧
     ShouldCache (NewCache b size lg sink : Cache B Q) key = false) ∧
  (∀ b size lg sink h tr l key,
     forallb (λ a, negb (is_arming a)) l = true →
     let st := calls l (mkState (NewCache b size lg sink) h tr) in
     enabled (cache st) = 0 ∧
     ShouldCache (cache st) key = false) ∧
  (∀ on st,
     ∃ st',
       SetEnabled on st = Ok tt st' ∧
       enabled (cache st') = (if on then 1 else 0) ∧
       lru (cache st') = lru (cache st) ∧
       backend (cache st') = backend (cache st) ∧
       locks (cache st') = locks (cache st) ∧
       logger (cache st') = logger (cache st) ∧
       cacheExceptions (cache st') = cacheExceptions (cache st) ∧
       metricSink (cache st') = metricSink (cache st) ∧
       heap st' = heap st ∧
       trace st' = trace st ∧
       ∀ key,
         ShouldCache (cache st') key =
           (if on then negb (HasPath (cacheExceptions (cache st)) key)
            else false)) ∧
  (∀ st,
     lru (cache (state_of (SetEnabled true (state_of (SetEnabled false st)))))
       = lru (cache st) ∧
     state_of (SetEnabled true (state_of (SetEnabled false st)))
       = state_of (SetEnabled true st)) ∧
  (∀ st l,
     forallb (λ a, negb (is_arming a)) l = true →
     forallb (λ a, negb (is_Purge a)) l = true →
     let st' :=
       state_of (SetEnabled true (calls l (state_of (SetEnabled false st)))) in
     enabled (cache st') = 1 ∧
     lru (cache st') = lru (cache st)) ∧
  (∀ st ctx entry key,
     enabled (cache st) = 0 →
     lru (cache (state_of (Put ctx entry st))) = lru (cache st) ∧
     lru (cache (state_of (Get ctx key st))) = lru (cache st) ∧
     lru (cache (state_of (Delete ctx key st))) = lru (cache st)) ∧
  (∀ st a,
     is_SetEnabled a = false →
     same_config (cache st) (cache (call a st))).
Proof.
  split_and!.
  - done.
  - intros b size lg sink h tr l key Hl st.
    destruct (disabled_calls l (mkState (NewCache b size lg sink) h tr)
                eq_refl Hl) as [Hoff _].
    fold st in Hoff. split; [done|]. unfold ShouldCache. by rewrite Hoff.
  - intros on st. eexists. split; [apply SetEnabled_run|].
    cbn [cache heap trace lru backend locks logger enabled cacheExceptions
         metricSink set_enabled].
    split_and!; try done. intros key. by destruct on.
  - intros st. by rewrite !SetEnabled_run.
  - intros st l Hl Hp st'. subst st'. rewrite SetEnabled_run.
    cbn [state_of cache enabled lru set_enabled]. split; [done|].
    destruct (disabled_calls l (state_of (SetEnabled false st))) as [_ Hq];
      [by rewrite SetEnabled_run|done|].
    rewrite (Hq Hp). by rewrite SetEnabled_run.
  - intros st ctx entry key. apply disabled_keeps_policy.
  - intros st a. apply call_same_config.
Qed.

(** ** Construction *)

(** C9. [NewCache] has no failing path: for every size it returns a
    cache whose policy is built by [New2Q] with a positive capacity, the
    default 131072 when the size given is zero or negative and the size
    given when it is positive. With a policy that accepts every positive
    capacity, the policy is there. *)
Theorem NewCache_capacity b size lg sink :
  DefaultCacheSize = 131072 ∧
  ∃ n,
    0 < n ∧
    lru (NewCache b size lg sink : Cache B Q) = New2Q n ∧
    (size ≤ 0 → n = 131072) ∧
    (0 < size → n = size) ∧
    ((∀ m, 0 < m → is_Some (New2Q (Q := Q) m)) →
       is_Some (lru (NewCache b size lg sink : Cache B Q))).
Proof.
  split; [reflexivity|].
  exists (if size <=? 0 then DefaultCacheSize else size).
  unfold NewCache. cbn [lru].
  destruct (Z.leb_spec size 0); split_and!; try done; try lia.
  - intros Hpos. by apply Hpos.
  - intros Hpos. by apply Hpos.
Qed.

(** ** Forced refresh *)

(** C10. The refresh flag of a context is true exactly when the value
    under the refresh key is the boolean true; a context built by
    [CacheRefreshContext] carries the boolean it was given. When the
    value is missing or not a boolean, a [Get] on a cacheable key probes
    the policy right after taking the read lock, before anything else;
    when it is the boolean true, the policy is not probed and the
    backend is read. *)
Theorem refresh_needs_boolean_true ctx :
  (cacheRefreshFromContext ctx = true
     ↔ Value_of ctx refreshCacheCtxKey = ABool true) ∧
  ((∀ r, Value_of ctx refreshCacheCtxKey ≠ ABool r) →
     cacheRefreshFromContext ctx = false) ∧
  (∀ r, cacheRefreshFromContext (CacheRefreshContext ctx r) = r) ∧
  ∀ key st q,
    ShouldCache (cache st) key = true →
    lru (cache st) = Some q →
    let lock := LockForKey (locks (cache st)) key in
    let evs := new_events st (state_of (Get ctx key st)) in
    (cacheRefreshFromContext ctx = false →
       take 2 evs = [EvRLock lock; EvLruGet key]) ∧
    (cacheRefreshFromContext ctx = true →
       (EvLruGet key ∉ evs) ∧
       take 3 evs =
         [EvRLock lock; EvIncrCounter ["cache"; "miss"] 1;
          EvBackendGet ctx key]).
Proof.
  split_and!.
  - unfold cacheRefreshFromContext.
    destruct (Value_of ctx refreshCacheCtxKey) as [| [] | | |]; naive_solver.
  - intros Hnb. unfold cacheRefreshFromContext.
    destruct (Value_of ctx refreshCacheCtxKey); try done.
    by destruct (Hnb b).
  - intros r. unfold cacheRefreshFromContext, CacheRefreshContext. cbn.
    by rewrite decide_True.
  - intros key st q HS Hq lock evs. subst evs lock. split.
    + intros Hr.
      unfold Get, new_events. run. rewrite HS, Hr. cbn. rewrite Hq.
      destruct (lru_Get key q) as [[raw ok] q'].
      destruct (backend_Get ctx key (heap st) (backend (cache st)))
        as [[[ent err] h'] b'] eqn:Hb.
      destruct ok; [destruct raw|destruct err]; cbn;
        rewrite ?Hb; cbn; rewrite ?Hb; cbn;
        unfold run_defers, run_deferred, emit; cbn;
        rewrite <- ?app_assoc; by rewrite drop_app_length.
    + intros Hr.
      destruct (backend_Get ctx key (heap st) (backend (cache st)))
        as [[[ent err] h'] b'] eqn:Hb.
      destruct err as [msg|].
      * rewrite (Get_miss_failure _ _ _ _ _ _ _ _ HS Hq (or_introl Hr) Hb).
        cbn [state_of]. rewrite new_events_app.
        unfold miss_prefix. rewrite Hr. cbn. split; [|done].
        rewrite !not_elem_of_cons. split_and!; try done. apply not_elem_of_nil.
      * rewrite (Get_miss_success _ _ _ _ _ _ _ HS Hq (or_introl Hr) Hb).
        cbn [state_of]. rewrite new_events_app.
        unfold miss_prefix. rewrite Hr. cbn. split; [|done].
        rewrite !not_elem_of_cons. split_and!; try done. apply not_elem_of_nil.
Qed.

End Proofs.

(** ** The cache at work *)

(** C3, at a miss followed by a hit. [Get] adds the [*Entry] that the
    backend returned to the policy and returns that same pointer; no copy
    is taken, unlike in [Put]. When the caller then writes to the array
    behind the entry it was given, the next [Get], a hit that calls no
    backend, returns the entry with the caller's bytes. *)
Theorem Get_shares_entry_with_caller :
  let st1 := state_of (Get Background "secret/bar" Demo.armed) in
  let st2 := Demo.scribble 2%nat st1 in
  let st3 := state_of (Get Background "secret/bar" st2) in
  let s := Slice 2 0 2 in
  Get Background "secret/bar" Demo.armed = Ok (Some 1%nat, None) st1 ∧
  lru_resident <$> lru (cache st1)
    = Some [("secret/bar", AEntry (Some 1%nat))] ∧
  Value <$> load_entry (heap st1) (Some 1%nat) = Some (Some s) ∧
  slice_bytes (heap st1) s = [Byte.x10; Byte.x20] ∧
  Get Background "secret/bar" st2 = Ok (Some 1%nat, None) st3 ∧
  forallb (λ e, negb (is_backend_event e)) (new_events st2 st3) = true ∧
  Value <$> load_entry (heap st3) (Some 1%nat) = Some (Some s) ∧
  slice_bytes (heap st3) s = [Byte.xff; Byte.x20].
Proof. vm_compute. by repeat split. Qed.

Lemma Put_write_through_witness :
  ∃ st' l',
    Put Background (Some 0%nat) Demo.armed = Ok None st' ∧
    lru (cache st')
      = Some (lru_Add "secret/foo" (AEntry (Some l')) Demo.q0) ∧
    fresh_copy (heap st') l' Demo.heap0 Demo.entry0.
Proof.
  assert (wf_opt_slice Demo.heap0 (Value Demo.entry0)) as HV.
  { eexists. split; [reflexivity|]. cbn. lia. }
  assert (wf_opt_slice Demo.heap0 (ValueHash Demo.entry0)) as HH.
  { eexists. split; [reflexivity|]. cbn. lia. }
  destruct (Put_write_through Background 0%nat Demo.entry0 Demo.armed
              Demo.q0 None Demo.heap0
              (Inmem.mk [("secret/foo", [Byte.x02; Byte.x03]);
                         ("secret/bar", [Byte.x10; Byte.x20])] false)
              ltac:(reflexivity) ltac:(reflexivity) ltac:(reflexivity)
              ltac:(reflexivity) Demo.entry0 ltac:(reflexivity) HV HH)
    as (st' & l' & HPut & Hlru & Hcopy & _).
  by exists st', l'.
Defined.

Lemma Get_hit_returns_cached_witness :
  ∃ st',
    Get Background "secret/none" Demo.absent = Ok (None, None) st' ∧
    counter ["cache"; "hit"] (trace st') =
      S (counter ["cache"; "hit"] (trace Demo.absent)) ∧
    forallb (λ e, negb (is_backend_event e)) (new_events Demo.absent st')
      = true.
Proof.
  assert (reachable Demo.absent) as Hreach.
  { apply reach_Get, reach_SetEnabled, reach_NewCache. }
  destruct (Get_hit_returns_cached Background "secret/none" Demo.absent
              (TwoQueue.mk 8 2 4 [("secret/none", AEntry None)] [] [])
              (AEntry None)
              (TwoQueue.mk 8 2 4 [] [("secret/none", AEntry None)] [])
              Hreach ltac:(reflexivity) ltac:(reflexivity)
              ltac:(reflexivity) ltac:(reflexivity))
    as (p & st' & Hp & HGet & Hhit & Hnb & _).
  injection Hp as <-. by exists st'.
Defined.

Lemma Get_miss_reads_backend_witness :
  (∃ st',
     Get Background "secret/bar" Demo.armed = Ok (Some 1%nat, None) st' ∧
     lru (cache st')
       = Some (lru_Add "secret/bar" (AEntry (Some 1%nat)) Demo.q0)) ∧
  (∃ st',
     Get Background "secret/bar" Demo.broken = Ok (None, Inmem.failure) st' ∧
     lru (cache st') = Some Demo.q0).
Proof.
  split.
  - destruct (Get_miss_reads_backend Background "secret/bar" Demo.armed
                Demo.q0 (Some 1%nat) None
                (mkHeap
                   [Demo.entry0;
                    mkEntry "secret/bar" (Some (Slice 2 0 2)) None false]
                   [[Byte.x01; Byte.x02; Byte.x03; Byte.x04]; [Byte.xaa];
                    [Byte.x10; Byte.x20]])
                (Inmem.mk [("secret/bar", [Byte.x10; Byte.x20])] false)
                ltac:(reflexivity) ltac:(reflexivity)
                ltac:(right; reflexivity) ltac:(reflexivity))
      as (st' & HGet & _ & Hlru & _).
    by exists st'.
  - destruct (Get_miss_reads_backend Background "secret/bar" Demo.broken
                Demo.q0 None Inmem.failure Demo.heap0
                (Inmem.mk [("secret/bar", [Byte.x10; Byte.x20])] true)
                ltac:(reflexivity) ltac:(reflexivity)
                ltac:(right; reflexivity) ltac:(reflexivity))
      as (st' & HGet & _ & Hlru & _).
    by exists st'.
Defined.

Lemma Delete_write_through_witness :
  (∃ st',
     Delete Background "secret/bar" Demo.armed = Ok None st' ∧
     lru (cache st') = Some (lru_Remove "secret/bar" Demo.q0)) ∧
  (∃ st',
     Delete Background "secret/foo" Demo.warm = Ok None st' ∧
     lru_resident <$> lru (cache st') = Some []) ∧
  (∃ st',
     Delete Background "secret/bar" Demo.broken = Ok Inmem.failure st' ∧
     lru (cache st') = Some Demo.q0) ∧
  (∃ st',
     Delete Background "secret/bar" Demo.fresh = Ok None st' ∧
     lru (cache st') = lru (cache Demo.fresh) ∧
     trace st' = [EvBackendDelete Background "secret/bar"]).
Proof.
  split_and!.
  - destruct (Delete_write_through (Backend0 := Inmem_backend) Background "secret/bar" Demo.armed None
                Demo.heap0 (Inmem.mk [] false) ltac:(reflexivity))
      as [_ Hcached].
    destruct (Hcached ltac:(reflexivity) Demo.q0 ltac:(reflexivity))
      as (st' & HDel & Hlru & _).
    by exists st'.
  - destruct (Delete_write_through (Backend0 := Inmem_backend) Background "secret/foo" Demo.warm None
                (heap Demo.warm)
                (Inmem.mk [("secret/bar", [Byte.x10; Byte.x20])] false)
                ltac:(reflexivity))
      as [_ Hcached].
    destruct (Hcached ltac:(reflexivity)
                (TwoQueue.mk 8 2 4 [("secret/foo", AEntry (Some 1%nat))] [] [])
                ltac:(reflexivity))
      as (st' & HDel & Hlru & _).
    exists st'. split; [done|]. by rewrite Hlru.
  - destruct (Delete_write_through (Backend0 := Inmem_backend) Background "secret/bar" Demo.broken
                Inmem.failure Demo.heap0
                (Inmem.mk [("secret/bar", [Byte.x10; Byte.x20])] true)
                ltac:(reflexivity))
      as [_ Hcached].
    destruct (Hcached ltac:(reflexivity) Demo.q0 ltac:(reflexivity))
      as (st' & HDel & Hlru & _).
    by exists st'.
  - destruct (Delete_write_through (Backend0 := Inmem_backend) Background "secret/bar" Demo.fresh None
                Demo.heap0 (Inmem.mk [] false) ltac:(reflexivity))
      as [Hforward _].
    destruct (Hforward ltac:(reflexivity))
      as (st' & HDel & Hlru & _ & _ & Htr).
    by exists st'.
Defined.

Lemma Purge_locks_the_world_witness :
  locks (cache Demo.warm) = seq 0 256 ∧
  ∃ st',
    Purge Background Demo.warm = Ok tt st' ∧
    lru_resident <$> lru (cache st') = Some [] ∧
    ∃ r st'',
      Get Background "secret/foo" st' = Ok r st'' ∧
      EvBackendGet Background "secret/foo" ∈ new_events st' st''.
Proof.
  destruct (Purge_locks_the_world Background Demo.warm)
    as (Hlocks & _ & Hpurge).
  split.
  - apply Hlocks, reach_Put, reach_SetEnabled, reach_NewCache.
  - destruct (Hpurge
                (TwoQueue.mk 8 2 4 [("secret/foo", AEntry (Some 1%nat))] [] [])
                ltac:(reflexivity))
      as (st' & HP & _ & Hlru & Hres & _ & Hen & _ & Hnext).
    exists st'. split; [done|]. split; [by rewrite Hlru|].
    apply Hnext. unfold ShouldCache. rewrite Hen.
    assert (cacheExceptions (cache st') = cacheExceptionsPaths) as ->.
    { rewrite (Purge_run _ _ _ (eq_refl : lru (cache Demo.warm) = Some _)) in HP.
      by injection HP as <-. }
    reflexivity.
Defined.

(** C8 at work. A new cache that is written, read, disabled again,
    purged and listed caches nothing. The warm cache, disabled, written
    and read while it is off, then enabled, has the policy it had. *)
Lemma SetEnabled_only_flips_flag_witness :
  enabled (cache
    (calls [CallPut Background (Some 0%nat); CallGet Background "secret/bar";
            CallSetEnabled false; CallPurge Background;
            CallList Background "secret/"; CallDelete Background "secret/bar"]
       Demo.fresh)) = 0 ∧
  ShouldCache (cache
    (calls [CallPut Background (Some 0%nat); CallGet Background "secret/bar";
            CallSetEnabled false; CallPurge Background;
            CallList Background "secret/"; CallDelete Background "secret/bar"]
       Demo.fresh)) "secret/foo" = false ∧
  lru (cache
    (state_of
       (SetEnabled true
          (calls [CallDelete Background "secret/foo";
                  CallGet Background "secret/foo";
                  CallPut Background (Some 0%nat)]
             (state_of (SetEnabled false Demo.warm))))))
    = Some Scenario.q_warm.
Proof.
  destruct (SetEnabled_only_flips_flag (B := Inmem.t) (Q := TwoQueue.t))
    as (_ & Huntil & _ & _ & Hlater & _).
  split_and!.
  - eapply (Huntil _ _ _ _ Demo.heap0 [] _ "secret/foo"). reflexivity.
  - eapply (Huntil _ _ _ _ Demo.heap0 [] _ "secret/foo"). reflexivity.
  - destruct (Hlater Demo.warm
                [CallDelete Background "secret/foo";
                 CallGet Background "secret/foo";
                 CallPut Background (Some 0%nat)]
                ltac:(reflexivity) ltac:(reflexivity)) as [_ Hq].
    rewrite Hq. reflexivity.
Defined.

Lemma NewCache_capacity_witness :
  lru (NewCache (Inmem.mk [] false) (-3) (mkLogger true) 0%nat
         : Cache Inmem.t TwoQueue.t)
    = New2Q 131072 ∧
  lru (NewCache (Inmem.mk [] false) 8 (mkLogger true) 0%nat
         : Cache Inmem.t TwoQueue.t)
    = Some Demo.q0 ∧
  is_Some (lru (NewCache (Inmem.mk [] false) 0 (mkLogger true) 0%nat
                  : Cache Inmem.t TwoQueue.t)).
Proof.
  split_and!.
  - destruct (NewCache_capacity (Q := TwoQueue.t) (Inmem.mk [] false) (-3)
                (mkLogger true) 0%nat)
      as (_ & n & _ & Hlru & Hdefault & _).
    rewrite Hlru, Hdefault; [reflexivity|lia].
  - destruct (NewCache_capacity (Q := TwoQueue.t) (Inmem.mk [] false) 8
                (mkLogger true) 0%nat)
      as (_ & n & _ & Hlru & _ & Hgiven & _).
    rewrite Hlru, Hgiven; [reflexivity|lia].
  - destruct (NewCache_capacity (Q := TwoQueue.t) (Inmem.mk [] false) 0
                (mkLogger true) 0%nat)
      as (_ & n & _ & _ & _ & _ & Hthere).
    apply Hthere, TwoQueueFacts.New2Q_Some.
Defined.

Lemma refresh_needs_boolean_true_witness :
  cacheRefreshFromContext Demo.odd_ctx = false ∧
  take 2 (new_events Demo.warm
            (state_of (Get Demo.odd_ctx "secret/foo" Demo.warm)))
    = [EvRLock 115%nat; EvLruGet "secret/foo"] ∧
  take 3 (new_events Demo.warm
            (state_of
               (Get (CacheRefreshContext Background true) "secret/foo"
                  Demo.warm)))
    = [EvRLock 115%nat; EvIncrCounter ["cache"; "miss"] 1;
       EvBackendGet (CacheRefreshContext Background true) "secret/foo"].
Proof.
  destruct (refresh_needs_boolean_true (B := Inmem.t) (Q := TwoQueue.t)
              Demo.odd_ctx)
    as (_ & Hodd & _ & Hprobe).
  destruct (refresh_needs_boolean_true (B := Inmem.t) (Q := TwoQueue.t)
              (CacheRefreshContext Background true))
    as (_ & _ & Hset & Hskip).
  split_and!.
  - apply Hodd. by intros r.
  - eapply Hprobe; [reflexivity|reflexivity|].
    apply Hodd. by intros r.
  - eapply Hskip; [reflexivity|reflexivity|]. apply Hset.
Defined.

(** * Further properties *)

Section Extras.
Context {B Q : Type} `{!Backend B} `{!EvictionPolicy Q} `{!Locksutil}.
Implicit Types (st : State B Q) (c : Cache B Q) (q : Q).

#[local] Arguments cloneEntry : simpl never.

Ltac tidy :=
  unfold emit, set_cache; proj; rewrite <- ?app_assoc; cbn [app];
  try reflexivity.

Ltac events :=
  unfold lock_events, backend_events, new_events; proj;
  first [ rewrite drop_app_length
        | rewrite <- ?app_assoc; rewrite ?drop_app_length, ?drop_all ];
  cbn [app List.filter is_lock_event is_backend_event]; try reflexivity.

Lemma Purge_result ctx st :
  ∃ r, state_of (Purge ctx st) =
         mkState
           (match lru (cache st) with
            | Some q => set_lru (Some (lru_Purge q)) (cache st)
            | None => cache st
            end)
           (heap st)
           (trace st ++ List.map EvLock (locks (cache st)) ++ r
              ++ List.map EvUnlock (rev (locks (cache st)))) ∧
       (r = [EvLruPurge] ∨ r = []).
Proof.
  destruct (lru (cache st)) as [q|] eqn:Hq.
  - exists [EvLruPurge]. rewrite (Purge_run _ _ _ Hq). by split; [|left].
  - exists []. rewrite (Purge_nil_lru _ _ Hq). by split; [|right].
Qed.

(** X: configuration frame *)
(** X1. On either exit, [Put], [Get], [Delete], [Purge], [List] and
    [ListPage] leave the lock array, the logger, the enable flag, the
    exceptions and the metric sink as they were, and a cache that has a
    policy still has one: only [SetEnabled] writes the flag, and nothing
    writes the rest after [NewCache]. *)
Theorem methods_keep_configuration st ctx entry key prefix after limit :
  same_config (cache st) (cache (state_of (Put ctx entry st))) ∧
  same_config (cache st) (cache (state_of (Get ctx key st))) ∧
  same_config (cache st) (cache (state_of (Delete ctx key st))) ∧
  same_config (cache st) (cache (state_of (Purge ctx st))) ∧
  same_config (cache st) (cache (state_of (List ctx prefix st))) ∧
  same_config (cache st)
    (cache (state_of (ListPage ctx prefix after limit st))).
Proof.
  split_and!.
  - unfold Put. exec. paths. all: unfold same_config; proj; by split_and!.
  - unfold Get. exec. paths. all: unfold same_config; proj; by split_and!.
  - unfold Delete. exec. paths. all: unfold same_config; proj; by split_and!.
  - destruct (Purge_result ctx st) as (r & -> & _). proj.
    destruct (lru (cache st)) eqn:Hq; unfold same_config; proj;
      rewrite ?Hq; by split_and!.
  - unfold List. exec. paths. all: unfold same_config; proj; by split_and!.
  - unfold ListPage. exec. paths. all: unfold same_config; proj; by split_and!.
Qed.

(** X2. [Put] and [Delete] take the write lock of the key and [Get] takes
    its read lock, once, and release it on every exit, a panic included;
    none of them takes a lock when the key is not cacheable, nor [Put]
    when the entry is nil. No other lock is touched. *)
Theorem one_lock_per_call st ctx entry key :
  lock_events st (state_of (Put ctx entry st)) =
    match load_entry (heap st) entry with
    | Some E =>
        if ShouldCache (cache st) (Key E)
        then [EvLock (LockForKey (locks (cache st)) (Key E));
              EvUnlock (LockForKey (locks (cache st)) (Key E))]
        else []
    | None => []
    end ∧
  lock_events st (state_of (Get ctx key st)) =
    (if ShouldCache (cache st) key
     then [EvRLock (LockForKey (locks (cache st)) key);
           EvRUnlock (LockForKey (locks (cache st)) key)]
     else []) ∧
  lock_events st (state_of (Delete ctx key st)) =
    (if ShouldCache (cache st) key
     then [EvLock (LockForKey (locks (cache st)) (key));
           EvUnlock (LockForKey (locks (cache st)) (key))]
     else []).
Proof.
  split_and!.
  - unfold Put. exec. destruct entry as [l|]; [|by events].
    paths. all: events. all: try (simplify_eq; congruence).
  - unfold Get. exec. paths. all: events. all: try (simplify_eq; congruence).
  - unfold Delete. exec. paths. all: events. all: try (simplify_eq; congruence).
Qed.

(** X3. A call reaches the backend at most once, with the arguments it
    was given: [Delete], [List] and [ListPage] exactly once, [Put] once
    unless the entry is nil, and [Get] once unless the key is cacheable,
    no refresh is forced and the policy answers (or is nil). There is no
    retry and no second read. *)
Theorem one_backend_call_per_call st ctx entry key prefix after limit :
  backend_events st (state_of (Put ctx entry st)) =
    match load_entry (heap st) entry with
    | Some _ => [EvBackendPut ctx entry]
    | None => []
    end ∧
  backend_events st (state_of (Get ctx key st)) =
    (if skips_backend ctx key (cache st) then []
     else [EvBackendGet ctx key]) ∧
  backend_events st (state_of (Delete ctx key st)) =
    [EvBackendDelete ctx key] ∧
  backend_events st (state_of (List ctx prefix st)) =
    [EvBackendList ctx prefix] ∧
  backend_events st (state_of (ListPage ctx prefix after limit st)) =
    [EvBackendListPage ctx prefix after limit].
Proof.
  split_and!.
  - unfold Put. exec. destruct entry as [l|]; [|by events].
    paths. all: events. all: try (simplify_eq; congruence).
  - unfold Get, skips_backend. exec.
    destruct (ShouldCache (cache st) key) eqn:HS;
      destruct (cacheRefreshFromContext ctx) eqn:Hr;
      (destruct (lru (cache st)) as [q|] eqn:Hq;
       [destruct (lru_Get key q) as [[raw ok] q'] eqn:Hg; destruct ok|]).
    all: paths. all: events. all: try (simplify_eq; congruence).
  - unfold Delete. exec. paths. all: events. all: try (simplify_eq; congruence).
  - unfold List. exec. paths. all: events. all: try (simplify_eq; congruence).
  - unfold ListPage. exec. paths. all: events. all: try (simplify_eq; congruence).
Qed.


(** X4. [NewCache] drops the error of [New2Q], so the policy can be nil.
    With a nil policy [Purge] panics, a cacheable [Get] panics at the
    probe, and a cacheable [Delete] or [Put] panics after the backend
    call has gone through with a nil error: the write is in the backend,
    the lock is released by the deferred unlock, and the caller gets a
    panic instead of the result. *)
Theorem nil_policy_panics st ctx key l E E' h' b' :
  lru (cache st) = None →
  let rlock := LockForKey (locks (cache st)) key in
  (Purge ctx st =
     Panic nil_dereference
       (mkState (cache st) (heap st)
          (trace st ++ List.map EvLock (locks (cache st))
             ++ List.map EvUnlock (rev (locks (cache st)))))) ∧
  (ShouldCache (cache st) key = true →
   cacheRefreshFromContext ctx = false →
   Get ctx key st =
     Panic nil_dereference
       (mkState (cache st) (heap st)
          (trace st ++ [EvRLock rlock; EvRUnlock rlock]))) ∧
  (ShouldCache (cache st) key = true →
   backend_Delete ctx key (heap st) (backend (cache st)) = (None, h', b') →
   Delete ctx key st =
     Panic nil_dereference
       (mkState (set_backend b' (cache st)) h'
          (trace st ++ [EvLock rlock; EvBackendDelete ctx key;
                        EvUnlock rlock]))) ∧
  (load_entry (heap st) (Some l) = Some E →
   ShouldCache (cache st) (Key E) = true →
   backend_Put ctx (Some l) (heap st) (backend (cache st)) = (None, h', b') →
   load_entry h' (Some l) = Some E' →
   Put ctx (Some l) st =
     Panic nil_dereference
       (mkState (set_backend b' (cache st)) (snd (cloneEntry E' h'))
          (trace st ++
             [EvLock (LockForKey (locks (cache st)) (Key E));
              EvBackendPut ctx (Some l);
              EvUnlock (LockForKey (locks (cache st)) (Key E))]))).
Proof.
  intros Hq rlock. split_and!.
  - by apply Purge_nil_lru.
  - intros HS Hr. unfold Get. exec. proj. rewrite HS, Hr. proj.
    rewrite Hq. proj. tidy.
  - intros HS Hb. unfold Delete. exec. proj. rewrite HS. proj.
    rewrite Hb. proj. rewrite Hq. proj. tidy.
  - intros HE HS Hb HE'. cbn in HE, HE'. unfold Put. exec. proj.
    rewrite HE. proj. rewrite HS. proj. rewrite HE. proj. rewrite Hb. proj.
    rewrite HE'. proj.
    destruct (cloneEntry E' h') as [l' h''] eqn:Hc. proj. rewrite Hq. proj.
    tidy.
Qed.

Context `{!EvictionPolicyLaws Q}.

(** X5. With a policy in place [Delete] and [Purge] end normally, [Put]
    ends normally for an entry that is there before and after the backend
    call, and in every state the cache reaches [Get] ends normally: the
    unchecked conversion of [raw] to [*Entry] never fails, as the policy holds
    entries only. *)
Theorem no_panic_with_a_policy st ctx key l :
  is_Some (lru (cache st)) →
  (∃ r st', Delete ctx key st = Ok r st') ∧
  (∃ st', Purge ctx st = Ok tt st') ∧
  (reachable st → ∃ r st', Get ctx key st = Ok r st') ∧
  (is_Some (load_entry (heap st) (Some l)) →
   is_Some
     (load_entry
        (snd (fst (backend_Put ctx (Some l) (heap st) (backend (cache st)))))
        (Some l)) →
   ∃ r st', Put ctx (Some l) st = Ok r st').
Proof.
  intros [q Hq]. split_and!.
  - unfold Delete. exec. paths. all: try by eauto. all: congruence.
  - rewrite (Purge_run _ _ _ Hq). eauto.
  - intros Hreach. apply reachable_only_entries in Hreach.
    unfold lru_only_entries in Hreach. rewrite Hq in Hreach.
    unfold Get. exec. paths. all: try by eauto.
    all: exfalso; simplify_eq; try congruence.
    all: match goal with
         | Hg : lru_Get _ _ = (_, true, _) |- _ =>
             by destruct (hit_is_entry _ _ _ _ Hreach Hg)
         end.
  - intros [E HE] HE'. cbn in HE, HE'. unfold Put. exec. proj.
    destruct (backend_Put ctx (Some l) (heap st) (backend (cache st)))
      as [[err h'] b'] eqn:Hb.
    cbn in HE'. destruct HE' as [E' HE'].
    paths. all: try by eauto. all: congruence.
Qed.


Ltac tally :=
  unfold gets_counted; proj; rewrite ?counter_app;
  repeat match goal with
  | |- context [counter ?k (?e :: ?tr)] =>
      let n := eval cbv in (counter k (e :: tr)) in
      change (counter k (e :: tr)) with n
  end;
  try lia.

(** X6. In a state the cache reaches, with a policy in place, a [Get] of
    a cacheable key is counted exactly once, as a hit or as a miss, and a
    [Get] that bypasses the cache is not counted; [Get] never touches the
    write counter. *)
Theorem every_cacheable_Get_is_counted st ctx key :
  reachable st →
  is_Some (lru (cache st)) →
  gets_counted (state_of (Get ctx key st)) =
    (if ShouldCache (cache st) key
     then S (gets_counted st) else gets_counted st) ∧
  counter ["cache"; "write"] (trace (state_of (Get ctx key st))) =
    counter ["cache"; "write"] (trace st).
Proof.
  intros Hreach [q Hq]. apply reachable_only_entries in Hreach.
  unfold lru_only_entries in Hreach. rewrite Hq in Hreach.
  unfold Get. exec.
  destruct (ShouldCache (cache st) key) eqn:HS; proj; paths.
  all: try (split; tally; fail).
  all: exfalso; simplify_eq; try congruence.
  all: match goal with
       | Hg : lru_Get _ _ = (_, true, _) |- _ =>
           by destruct (hit_is_entry _ _ _ _ Hreach Hg)
       end.
Qed.


(** X7. After a [Put] that the backend accepted, whatever the caller
    writes to the cells and arrays that existed before the clone was
    taken, a [Get] of the key that the policy answers with what [Put]
    added returns the clone, with the key, the flag and the bytes the
    entry had when it was put, and reads no backend. *)
Theorem Put_then_Get_serves_the_copy
    ctx ctx' l E E' st q h' b' q2 h2 :
  load_entry (heap st) (Some l) = Some E →
  ShouldCache (cache st) (Key E) = true →
  lru (cache st) = Some q →
  backend_Put ctx (Some l) (heap st) (backend (cache st)) = (None, h', b') →
  load_entry h' (Some l) = Some E' →
  Key E' = Key E →
  wf_opt_slice h' (Value E') →
  wf_opt_slice h' (ValueHash E') →
  cacheRefreshFromContext ctx' = false →
  let st1 := state_of (Put ctx (Some l) st) in
  let l' := length (entries h') in
  lru_Get (Key E) (lru_Add (Key E) (AEntry (Some l')) q)
    = (AEntry (Some l'), true, q2) →
  entries h2 !! l' = entries (heap st1) !! l' →
  (∀ a, (length (arrays h') ≤ a)%nat →
        arrays h2 !! a = arrays (heap st1) !! a) →
  ∃ C st2,
    Get ctx' (Key E) (mkState (cache st1) h2 (trace st1))
      = Ok (Some l', None) st2 ∧
    backend_events (mkState (cache st1) h2 (trace st1)) st2 = [] ∧
    load_entry (heap st2) (Some l') = Some C ∧
    Key C = Key E' ∧
    SealWrap C = SealWrap E' ∧
    bytes_of (heap st2) (Value C) = bytes_of h' (Value E') ∧
    bytes_of (heap st2) (ValueHash C) = bytes_of h' (ValueHash E').
Proof.
  intros HE HS Hq Hb HE' HK HV HH Hr st1 l' Hg Hcell Harr.
  pose proof (Put_success _ _ _ _ _ _ _ _ HE HS Hq Hb HE') as HPut.
  pose proof (cloneEntry_fresh_copy E' h' HV HH) as (_ & C & HC & HKC & HSC & HVC & HHC & Hnew).
  assert (fst (cloneEntry E' h') = length (entries h')) as Hl' by done.
  rewrite Hl' in HPut, HC. rewrite HK in HPut.
  subst st1 l'. rewrite HPut in *. cbn [state_of] in *.
  cbn [heap] in Hcell, Harr.
  eexists C, _. split.
  { eapply Get_hit_entry; proj; try done. }
  unfold backend_events.
  rewrite (new_events_app (mkState _ h2 _)).
  proj. split_and!; try done.
  - exact (eq_trans Hcell HC).
  - rewrite <- HVC. destruct (Value C) as [s|] eqn:HVs; [|done]. cbn.
    f_equal. unfold slice_bytes. rewrite Harr; [done|]. apply Hnew. by left.
  - rewrite <- HHC. destruct (ValueHash C) as [s|] eqn:HVs; [|done]. cbn.
    f_equal. unfold slice_bytes. rewrite Harr; [done|]. apply Hnew. by right.
Qed.


(** X8. A [Get] that read the backend without error, on a miss or on a
    forced refresh, leaves the result in the policy: when the policy
    answers with it, the next [Get] returns the same pointer, nil
    included, counts a hit and reads no backend. *)
Theorem second_Get_is_served_from_the_cache
    ctx ctx' key st q ent h' b' q2 h2 :
  ShouldCache (cache st) key = true →
  lru (cache st) = Some q →
  cacheRefreshFromContext ctx = true ∨ snd (fst (lru_Get key q)) = false →
  backend_Get ctx key (heap st) (backend (cache st)) = (ent, None, h', b') →
  cacheRefreshFromContext ctx' = false →
  lru_Get key (lru_Add key (AEntry ent) q) = (AEntry ent, true, q2) →
  let st1 := state_of (Get ctx key st) in
  let st1' := mkState (cache st1) h2 (trace st1) in
  backend_events st st1 = [EvBackendGet ctx key] ∧
  ∃ st2,
    Get ctx' key st1' = Ok (ent, None) st2 ∧
    backend_events st1' st2 = [] ∧
    backend (cache st2) = b' ∧
    counter ["cache"; "hit"] (trace st2) =
      S (counter ["cache"; "hit"] (trace st1)).
Proof.
  intros HS Hq Hm Hb Hr Hg st1 st1'.
  assert (cacheRefreshFromContext ctx = true
          ∨ lru_Get key q = (ANil, false, q)) as Hm'.
  { destruct Hm as [?|Hmiss]; [by left|right].
    destruct (lru_Get key q) as [[v ok] q1] eqn:Hg1. cbn in Hmiss. subst ok.
    by apply lru_Get_miss in Hg1 as [-> ->]. }
  pose proof (Get_miss_success _ _ _ _ _ _ _ HS Hq Hm' Hb) as HGet.
  subst st1' st1. rewrite HGet. cbn [state_of]. split.
  { unfold backend_events, miss_prefix. rewrite new_events_app.
    by destruct (cacheRefreshFromContext ctx). }
  eexists. split.
  { eapply Get_hit_entry; proj; try done. }
  unfold backend_events. rewrite (new_events_app (mkState _ h2 _)).
  proj. split_and!; try done. tally.
Qed.

(** X9. When the backend refuses a [Delete] or a [Put] of a key that the
    policy holds, the entry stays: the next [Get] returns the entry that
    was cached before the failed call, without a backend read. *)
Theorem failed_write_keeps_the_cached_entry ctx ctx' key st q p q' :
  ShouldCache (cache st) key = true →
  lru (cache st) = Some q →
  lru_Get key q = (AEntry p, true, q') →
  cacheRefreshFromContext ctx' = false →
  (∀ msg h' b',
     backend_Delete ctx key (heap st) (backend (cache st))
       = (Some msg, h', b') →
     ∃ st2,
       Get ctx' key (state_of (Delete ctx key st)) = Ok (p, None) st2 ∧
       backend_events (state_of (Delete ctx key st)) st2 = []) ∧
  (∀ l E msg h' b',
     load_entry (heap st) (Some l) = Some E →
     Key E = key →
     backend_Put ctx (Some l) (heap st) (backend (cache st))
       = (Some msg, h', b') →
     ∃ st2,
       Get ctx' key (state_of (Put ctx (Some l) st)) = Ok (p, None) st2 ∧
       backend_events (state_of (Put ctx (Some l) st)) st2 = []).
Proof.
  intros HS Hq Hg Hr. split.
  - intros msg h' b' Hb. rewrite (Delete_failure _ _ _ _ _ _ HS Hb).
    cbn [state_of]. eexists. split.
    { eapply Get_hit_entry; proj; try done. }
    by events.
  - intros l E msg h' b' HE <- Hb. rewrite (Put_failure _ _ _ _ _ _ _ HE HS Hb).
    cbn [state_of]. eexists. split.
    { eapply Get_hit_entry; proj; try done. }
    by events.
Qed.

(** X10. A [Put] or a [Delete] made while the cache is disabled reaches
    the backend and not the policy. After [SetEnabled(true)] a [Get] of
    that key is still answered with the entry cached before, without a
    backend read. *)
Theorem disabled_write_leaves_a_stale_entry ctx ctx' l E st q p q' :
  lru (cache st) = Some q →
  lru_Get (Key E) q = (AEntry p, true, q') →
  HasPath (cacheExceptions (cache st)) (Key E) = false →
  load_entry (heap st) (Some l) = Some E →
  cacheRefreshFromContext ctx' = false →
  let st1 := state_of (SetEnabled false st) in
  (let st2 := state_of (Put ctx (Some l) st1) in
   let st3 := state_of (SetEnabled true st2) in
   backend_events st1 st2 = [EvBackendPut ctx (Some l)] ∧
   ∃ st4,
     Get ctx' (Key E) st3 = Ok (p, None) st4 ∧
     backend_events st3 st4 = []) ∧
  (let st2 := state_of (Delete ctx (Key E) st1) in
   let st3 := state_of (SetEnabled true st2) in
   backend_events st1 st2 = [EvBackendDelete ctx (Key E)] ∧
   ∃ st4,
     Get ctx' (Key E) st3 = Ok (p, None) st4 ∧
     backend_events st3 st4 = []).
Proof.
  intros Hq Hg Hx HE Hr st1. subst st1. rewrite SetEnabled_run.
  cbn [state_of]. split.
  - destruct (backend_Put ctx (Some l) (heap st) (backend (cache st)))
      as [[err h'] b'] eqn:Hb.
    rewrite (Put_forward _ _ E _ err h' b'); [|done|done|done].
    cbn [state_of]. rewrite SetEnabled_run. cbn [state_of]. proj. split.
    { by events. }
    eexists. split.
    { eapply Get_hit_entry; proj; try done.
      unfold ShouldCache. proj. by rewrite Hx. }
    by events.
  - destruct (backend_Delete ctx (Key E) (heap st) (backend (cache st)))
      as [[err h'] b'] eqn:Hb.
    rewrite (Delete_forward _ _ _ err h' b'); [|done|done].
    cbn [state_of]. rewrite SetEnabled_run. cbn [state_of]. proj. split.
    { by events. }
    eexists. split.
    { eapply Get_hit_entry; proj; try done.
      unfold ShouldCache. proj. by rewrite Hx. }
    by events.
Qed.


(** X11. [List] and [ListPage] return what the backend returns, keys and
    error alike, whether or not the cache is enabled; they take no lock
    and leave the policy alone. *)
Theorem listing_passes_through st ctx prefix after limit :
  let r := backend_List ctx prefix (heap st) (backend (cache st)) in
  let rp :=
    backend_ListPage ctx prefix after limit (heap st) (backend (cache st)) in
  List ctx prefix st =
    Ok (fst (fst r))
      (mkState (set_backend (snd r) (cache st)) (snd (fst r))
         (trace st ++ [EvBackendList ctx prefix])) ∧
  ListPage ctx prefix after limit st =
    Ok (fst (fst rp))
      (mkState (set_backend (snd rp) (cache st)) (snd (fst rp))
         (trace st ++ [EvBackendListPage ctx prefix after limit])) ∧
  lru (cache (state_of (List ctx prefix st))) = lru (cache st) ∧
  lru (cache (state_of (ListPage ctx prefix after limit st)))
    = lru (cache st) ∧
  lock_events st (state_of (List ctx prefix st)) = [] ∧
  lock_events st (state_of (ListPage ctx prefix after limit st)) = [].
Proof.
  intros r rp. subst r rp. unfold List, ListPage. exec. proj.
  destruct (backend_List ctx prefix (heap st) (backend (cache st)))
    as [[[keys err] h'] b'].
  destruct (backend_ListPage ctx prefix after limit (heap st)
              (backend (cache st))) as [[[keys' err'] h''] b''].
  proj. split_and!; try done; by events.
Qed.

Lemma prefix_append p s : String.prefix p (String.append p s) = true.
Proof.
  induction p as [|a p IH]; [by destruct s|].
  change (String.prefix (String a p) (String a (String.append p s)) = true).
  cbn [String.prefix].
  destruct (Ascii.ascii_dec a a); [done|congruence].
Qed.

#[local] Instance exceptions_invariant pm :
  CacheInvariant (λ c : Cache B Q, cacheExceptions c = pm).
Proof. by split. Qed.

Lemma reachable_exceptions st :
  reachable st → cacheExceptions (cache st) = cacheExceptionsPaths.
Proof.
  by apply (reachable_invariant (λ c, cacheExceptions c = cacheExceptionsPaths)).
Qed.

(** X12. In every state the cache reaches, a key that starts with one of
    [cacheExceptionsPaths] is not cacheable, enabled or not: [Get],
    [Delete] and [Put] on it call the backend once, take no lock and
    leave the policy alone. *)
Theorem exception_paths_are_never_cached st p suffix :
  reachable st →
  In p cacheExceptionsPaths →
  let key := String.append p suffix in
  ShouldCache (cache st) key = false ∧
  (∀ ctx,
     lock_events st (state_of (Get ctx key st)) = [] ∧
     backend_events st (state_of (Get ctx key st)) = [EvBackendGet ctx key] ∧
     lru (cache (state_of (Get ctx key st))) = lru (cache st)) ∧
  (∀ ctx,
     lock_events st (state_of (Delete ctx key st)) = [] ∧
     backend_events st (state_of (Delete ctx key st))
       = [EvBackendDelete ctx key] ∧
     lru (cache (state_of (Delete ctx key st))) = lru (cache st)) ∧
  (∀ ctx l E,
     load_entry (heap st) (Some l) = Some E →
     Key E = key →
     lock_events st (state_of (Put ctx (Some l) st)) = [] ∧
     backend_events st (state_of (Put ctx (Some l) st))
       = [EvBackendPut ctx (Some l)] ∧
     lru (cache (state_of (Put ctx (Some l) st))) = lru (cache st)).
Proof.
  intros Hreach Hp key.
  assert (ShouldCache (cache st) key = false) as HS.
  { unfold ShouldCache. destruct (enabled (cache st) =? 0); [done|].
    rewrite (reachable_exceptions _ Hreach).
    assert (HasPath cacheExceptionsPaths key = true) as ->; [|done].
    apply existsb_exists. exists p. split; [done|]. apply prefix_append. }
  split_and!; [done|..].
  - intros ctx.
    destruct (backend_Get ctx key (heap st) (backend (cache st)))
      as [[[ent err] h'] b'] eqn:Hb.
    rewrite (Get_forward _ _ _ _ _ _ _ HS Hb). cbn [state_of].
    split_and!; by events.
  - intros ctx.
    destruct (backend_Delete ctx key (heap st) (backend (cache st)))
      as [[err h'] b'] eqn:Hb.
    rewrite (Delete_forward _ _ _ _ _ _ HS Hb). cbn [state_of].
    split_and!; by events.
  - intros ctx l E HE HK. rewrite <- HK in HS.
    destruct (backend_Put ctx (Some l) (heap st) (backend (cache st)))
      as [[err h'] b'] eqn:Hb.
    rewrite (Put_forward _ _ _ _ _ _ _ HE HS Hb). cbn [state_of].
    split_and!; by events.
Qed.

End Extras.

(** X13. The clone that [Put] takes is one new cell and one new array
    for each non-nil field. A nil field stays nil and a non-nil one stays
    non-nil with its length, at offset 0 of an array that did not exist
    before; the value and the value hash of the clone never share an
    array, even if those of the entry do; nothing that existed is
    written. *)
Theorem cloneEntry_takes_arrays_of_its_own E h :
  wf_opt_slice h (Value E) →
  wf_opt_slice h (ValueHash E) →
  ∃ C new,
    fst (cloneEntry E h) = length (entries h) ∧
    entries (snd (cloneEntry E h)) = entries h ++ [C] ∧
    arrays (snd (cloneEntry E h)) = arrays h ++ new ∧
    (Value C = None ↔ Value E = None) ∧
    (ValueHash C = None ↔ ValueHash E = None) ∧
    (∀ sv, Value C = Some sv →
       ∃ s, Value E = Some s ∧ s_len sv = s_len s ∧ s_off sv = 0%nat ∧
            (length (arrays h) ≤ s_array sv < length (arrays h ++ new))%nat) ∧
    (∀ sh, ValueHash C = Some sh →
       ∃ s, ValueHash E = Some s ∧ s_len sh = s_len s ∧ s_off sh = 0%nat ∧
            (length (arrays h) ≤ s_array sh < length (arrays h ++ new))%nat) ∧
    (∀ sv sh, Value C = Some sv → ValueHash C = Some sh →
       s_array sv ≠ s_array sh).
Proof.
  intros HV HH. rewrite cloneEntry_eq by done. cbn [fst snd entries arrays].
  eexists _, _. split_and!; try done; cbn [Value ValueHash].
  - by destruct (Value E).
  - by destruct (ValueHash E).
  - intros sv Hsv. destruct (Value E) as [s|]; [|done].
    injection Hsv as <-. exists s. cbn. rewrite !length_app. cbn.
    split_and!; try done; lia.
  - intros sh Hsh. destruct (ValueHash E) as [s|]; [|done].
    injection Hsh as <-. exists s. cbn. rewrite !length_app. cbn.
    split_and!; try done; try lia.
  - intros sv sh Hsv Hsh.
    destruct (Value E) as [s1|]; [|done].
    destruct (ValueHash E) as [s2|]; [|done].
    injection Hsv as <-. injection Hsh as <-. cbn. rewrite length_app. cbn. lia.
Qed.

(** ** The further properties at work *)

Lemma nil_policy_panics_witness :
  (∃ st',
     Get Background "secret/foo" Scenario.unbuilt = Panic nil_dereference st') ∧
  (∃ st',
     Put Background (Some 0%nat) Scenario.unbuilt = Panic nil_dereference st' ∧
     Inmem.store (backend (cache st'))
       = [("secret/foo", [Byte.x02; Byte.x03]);
          ("secret/bar", [Byte.x10; Byte.x20])] ∧
     lock_events Scenario.unbuilt st' = [EvLock 115%nat; EvUnlock 115%nat]).
Proof.
  destruct (nil_policy_panics (Backend0 := Inmem_backend) Scenario.unbuilt
              Background "secret/foo" 0%nat Demo.entry0 Demo.entry0
              Demo.heap0
              (Inmem.mk [("secret/foo", [Byte.x02; Byte.x03]);
                         ("secret/bar", [Byte.x10; Byte.x20])] false)
              ltac:(reflexivity))
    as (_ & HGet & _ & HPut).
  split.
  - eexists. apply HGet; reflexivity.
  - eexists. split; [apply HPut; reflexivity|]. split; reflexivity.
Defined.

Lemma no_panic_with_a_policy_witness :
  (∃ r st', Get Background "secret/foo" Demo.warm = Ok r st') ∧
  (∃ r st', Put Background (Some 0%nat) Demo.warm = Ok r st') ∧
  (∃ r st', Delete Background "secret/foo" Demo.warm = Ok r st').
Proof.
  destruct (no_panic_with_a_policy (Backend0 := Inmem_backend) Demo.warm
              Background "secret/foo" 0%nat ltac:(by eexists))
    as (HDelete & _ & HGet & HPut).
  split_and!.
  - apply HGet, reach_Put, reach_SetEnabled, reach_NewCache.
  - apply HPut; by eexists.
  - apply HDelete.
Defined.

Lemma every_cacheable_Get_is_counted_witness :
  gets_counted (state_of (Get Background "secret/foo" Demo.warm))
    = S (gets_counted Demo.warm) ∧
  gets_counted (state_of (Get Background "core/seal-config" Demo.warm))
    = gets_counted Demo.warm.
Proof.
  assert (reachable Demo.warm) as Hreach
    by apply reach_Put, reach_SetEnabled, reach_NewCache.
  split.
  - by destruct (every_cacheable_Get_is_counted Demo.warm Background
                   "secret/foo" Hreach ltac:(by eexists)) as [-> _].
  - by destruct (every_cacheable_Get_is_counted Demo.warm Background
                   "core/seal-config" Hreach ltac:(by eexists)) as [-> _].
Defined.

Lemma Put_then_Get_serves_the_copy_witness :
  slice_bytes (heap (Demo.scribble 0%nat Demo.warm)) (Slice 0 0 4)
    = [Byte.xff; Byte.x02; Byte.x03; Byte.x04] ∧
  ∃ C st2,
    Get Background "secret/foo" (Demo.scribble 0%nat Demo.warm)
      = Ok (Some 1%nat, None) st2 ∧
    load_entry (heap st2) (Some 1%nat) = Some C ∧
    bytes_of (heap st2) (Value C) = Some [Byte.x02; Byte.x03] ∧
    bytes_of (heap st2) (ValueHash C) = Some [Byte.xaa].
Proof.
  split; [reflexivity|].
  destruct (Put_then_Get_serves_the_copy (Backend0 := Inmem_backend)
              Background Background 0%nat Demo.entry0 Demo.entry0 Demo.armed
              Demo.q0 Demo.heap0
              (Inmem.mk [("secret/foo", [Byte.x02; Byte.x03]);
                         ("secret/bar", [Byte.x10; Byte.x20])] false)
              Scenario.q_hot (heap (Demo.scribble 0%nat Demo.warm))
              ltac:(reflexivity) ltac:(reflexivity) ltac:(reflexivity)
              ltac:(reflexivity) ltac:(reflexivity) ltac:(reflexivity)
              ltac:(eexists; split; [reflexivity|cbn; lia])
              ltac:(eexists; split; [reflexivity|cbn; lia])
              ltac:(reflexivity) ltac:(reflexivity) ltac:(reflexivity))
    as (C & st2 & HGet & _ & HC & _ & _ & HV & HH).
  { intros a Ha. destruct a as [|[|a]]; [cbn in Ha; lia..|reflexivity]. }
  by exists C, st2.
Defined.

Lemma second_Get_is_served_from_the_cache_witness :
  ∃ st2,
    Get Background "secret/none" Demo.absent = Ok (None, None) st2 ∧
    backend_events Demo.absent st2 = [].
Proof.
  destruct (second_Get_is_served_from_the_cache (Backend0 := Inmem_backend)
              Background Background "secret/none" Demo.armed Demo.q0 None
              Demo.heap0
              (Inmem.mk [("secret/bar", [Byte.x10; Byte.x20])] false)
              (TwoQueue.mk 8 2 4 [] [("secret/none", AEntry None)] [])
              (heap Demo.absent)
              ltac:(reflexivity) ltac:(reflexivity)
              ltac:(right; reflexivity) ltac:(reflexivity)
              ltac:(reflexivity) ltac:(reflexivity))
    as (_ & st2 & HGet & Hnone & _).
  by exists st2.
Defined.

Lemma failed_write_keeps_the_cached_entry_witness :
  (∃ st2,
     Get Background "secret/foo"
       (state_of (Delete Background "secret/foo" Scenario.cut_off))
       = Ok (Some 1%nat, None) st2) ∧
  (∃ st2,
     Get Background "secret/foo"
       (state_of (Put Background (Some 0%nat) Scenario.cut_off))
       = Ok (Some 1%nat, None) st2).
Proof.
  destruct (failed_write_keeps_the_cached_entry (Backend0 := Inmem_backend)
              Background Background "secret/foo" Scenario.cut_off
              Scenario.q_warm (Some 1%nat) Scenario.q_hot
              ltac:(reflexivity) ltac:(reflexivity) ltac:(reflexivity)
              ltac:(reflexivity))
    as (HDelete & HPut).
  split.
  - destruct (HDelete "inmem: simulated failure" (heap Demo.warm)
                (backend (cache Scenario.cut_off)) ltac:(reflexivity))
      as (st2 & HGet & _).
    by exists st2.
  - destruct (HPut 0%nat Demo.entry0 "inmem: simulated failure"
                (heap Demo.warm) (backend (cache Scenario.cut_off))
                ltac:(reflexivity) ltac:(reflexivity) ltac:(reflexivity))
      as (st2 & HGet & _).
    by exists st2.
Defined.

Lemma disabled_write_leaves_a_stale_entry_witness :
  let off := state_of (SetEnabled false Demo.warm) in
  let on := state_of (SetEnabled true
                        (state_of (Delete Background "secret/foo" off))) in
  Inmem.store (backend (cache on)) = [("secret/bar", [Byte.x10; Byte.x20])] ∧
  ∃ st4, Get Background "secret/foo" on = Ok (Some 1%nat, None) st4.
Proof.
  split; [reflexivity|].
  destruct (disabled_write_leaves_a_stale_entry (Backend0 := Inmem_backend)
              Background Background 0%nat Demo.entry0 Demo.warm
              Scenario.q_warm (Some 1%nat) Scenario.q_hot
              ltac:(reflexivity) ltac:(reflexivity) ltac:(reflexivity)
              ltac:(reflexivity) ltac:(reflexivity))
    as (_ & _ & st4 & HGet & _).
  by exists st4.
Defined.

Lemma exception_paths_are_never_cached_witness :
  ShouldCache (cache Demo.armed) "core/seal-config" = false ∧
  ShouldCache (cache Demo.armed) "wal/logs/0001" = false ∧
  lru (cache (state_of (Get Background "wal/logs/0001" Demo.warm)))
    = lru (cache Demo.warm).
Proof.
  split_and!.
  - apply (exception_paths_are_never_cached (Backend0 := Inmem_backend)
             Demo.armed "core/seal-config" "").
    + apply reach_SetEnabled, reach_NewCache.
    + cbn. tauto.
  - apply (exception_paths_are_never_cached (Backend0 := Inmem_backend)
             Demo.armed "wal/logs/" "0001").
    + apply reach_SetEnabled, reach_NewCache.
    + cbn. tauto.
  - apply (exception_paths_are_never_cached (Backend0 := Inmem_backend)
             Demo.warm "wal/logs/" "0001").
    + apply reach_Put, reach_SetEnabled, reach_NewCache.
    + cbn. tauto.
Defined.

Lemma cloneEntry_takes_arrays_of_its_own_witness :
  ∃ C,
    entries (snd (cloneEntry Demo.entry0 Demo.heap0)) = [Demo.entry0; C] ∧
    Value C = Some (Slice 2 0 2) ∧
    ValueHash C = Some (Slice 3 0 1).
Proof.
  destruct (cloneEntry_takes_arrays_of_its_own Demo.entry0 Demo.heap0)
    as (C & new & _ & HC & _).
  - eexists. split; [reflexivity|cbn; lia].
  - eexists. split; [reflexivity|cbn; lia].
  - exists C. split; [exact HC|].
    vm_compute in HC. by injection HC as <-.
Defined.
